(** * Context features over integral images (contextAverage.hxx)

    A shallow embedding of [average_features], [average_features_3d_is],
    [avContext2Dmulti], [varContext2Dmulti] and [varContext3Dmulti].

    Conventions of the model.
    - The element type [T] is taken to be exact: values are rationals [Q],
      compared with [==].  Rounding of a floating-point [T] is outside the
      model.
    - The index type [IND] is a template parameter and the counts are C++
      [int]s; both are read as mathematical integers [Z].  The model covers
      the executions in which no index or count leaves the range of its
      C++ type; the definitions named [_int] write out the wrap-around of
      the [int] counts for the one place where it is reached on small
      arrays.
    - A [MultiArrayView<N,T>] is a shape together with an element function
      on index lists; an access outside the shape has no meaning in C++ and
      is never relied upon.
    - The three views handed to a driver are distinct objects. *)

From Stdlib Require Import ZArith QArith List Bool Lia Lqa Setoid Morphisms.
Import ListNotations.

Open Scope Z_scope.

(** ** Arrays *)

Definition index := list Z.

Fixpoint index_eqb (i j : index) : bool :=
  match i, j with
  | [], [] => true
  | a :: i', b :: j' => (a =? b) && index_eqb i' j'
  | _, _ => false
  end.

(** [MultiArrayView<N,T>]: [shape] has [N] entries, [elem] is [operator()]. *)
Record marray := MArray { shape : list Z; elem : index -> Q }.

(** [a.shape()[k]] *)
Definition dim (a : marray) (k : nat) : Z := nth k (shape a) 0.

(** [a(i) = v] *)
Definition store (a : marray) (i : index) (v : Q) : marray :=
  MArray (shape a) (fun j => if index_eqb j i then v else elem a j).

(** [std::vector<T>]: [v[i] = q]; nothing is modelled for an index past
    the end, which C++ leaves undefined. *)
Fixpoint vec_set (v : list Q) (i : nat) (q : Q) : list Q :=
  match v, i with
  | [], _ => []
  | _ :: t, O => q :: t
  | h :: t, S i' => h :: vec_set t i' q
  end.

(** ** Finite sums *)

(** [f lo + f (lo+1) + ... + f (lo+n-1)] *)
Fixpoint sum_from (lo : Z) (n : nat) (f : Z -> Q) : Q :=
  match n with
  | O => 0%Q
  | S n' => (f lo + sum_from (lo + 1) n' f)%Q
  end.

(** [f 0 + ... + f hi]; empty when [hi < 0]. *)
Definition sum_upto (hi : Z) (f : Z -> Q) : Q :=
  sum_from 0 (Z.to_nat (hi + 1)) f.

(** Brute-force sum of channel [c] of [F] over the closed square
    [x-r, x+r] x [y-r, y+r]. *)
Definition box_sum2 (F : marray) (x y c r : Z) : Q :=
  sum_from (x - r) (Z.to_nat (2 * r + 1)) (fun a =>
  sum_from (y - r) (Z.to_nat (2 * r + 1)) (fun b => elem F [a; b; c])).

(** Brute-force sum of channel [c] of [F] over the closed cube of radius [r]
    around [(x, y, z)]. *)
Definition box_sum3 (F : marray) (x y z c r : Z) : Q :=
  sum_from (x - r) (Z.to_nat (2 * r + 1)) (fun a =>
  sum_from (y - r) (Z.to_nat (2 * r + 1)) (fun b =>
  sum_from (z - r) (Z.to_nat (2 * r + 1)) (fun d => elem F [a; b; d; c]))).

(** ** Integral images (integralImage.hxx) *)

(** Two-dimensional prefix sum of [g]. *)
Definition prefix2 (g : Z -> Z -> Q) (x y : Z) : Q :=
  sum_upto x (fun a => sum_upto y (fun b => g a b)).

(** Three-dimensional prefix sum of [g]. *)
Definition prefix3 (g : Z -> Z -> Z -> Q) (x y z : Z) : Q :=
  sum_upto x (fun a => sum_upto y (fun b => sum_upto z (fun d => g a b d))).

(** [I] is the exact prefix sum of [F]: same shape, and inside the bounds
    element [(x, y, c)] is the sum of [F] over all [(a, b) <= (x, y)]. *)
Definition is_integral2 (F I : marray) : Prop :=
  shape I = shape F /\
  forall x y c, 0 <= x < dim F 0 -> 0 <= y < dim F 1 -> 0 <= c < dim F 2 ->
    elem I [x; y; c] == prefix2 (fun a b => elem F [a; b; c]) x y.

Definition is_integral3 (F I : marray) : Prop :=
  shape I = shape F /\
  forall x y z c,
    0 <= x < dim F 0 -> 0 <= y < dim F 1 -> 0 <= z < dim F 2 ->
    0 <= c < dim F 3 ->
    elem I [x; y; z; c] == prefix3 (fun a b d => elem F [a; b; d; c]) x y z.

(** Modelled from the spec: [integralImage] of integralImage.hxx, which is
    not part of the sources at hand.  The accumulator has the shape of the
    input and holds at [(x, y, c)] the sum of the input over every position
    that is componentwise [<= (x, y)]. *)
Definition integralImage (p : marray) : marray :=
  MArray (shape p) (fun i =>
    match i with
    | [x; y; c] => prefix2 (fun a b => elem p [a; b; c]) x y
    | _ => 0%Q
    end).

(** Modelled from the spec: [integralImage2] of integralImage.hxx, the same
    accumulator over the squared values. *)
Definition integralImage2 (p : marray) : marray :=
  MArray (shape p) (fun i =>
    match i with
    | [x; y; c] =>
        prefix2 (fun a b => (elem p [a; b; c] * elem p [a; b; c])%Q) x y
    | _ => 0%Q
    end).

(** Modelled from the spec: [integralVolume] of integralImage.hxx, the
    three-dimensional accumulator. *)
Definition integralVolume (p : marray) : marray :=
  MArray (shape p) (fun i =>
    match i with
    | [x; y; z; c] => prefix3 (fun a b d => elem p [a; b; d; c]) x y z
    | _ => 0%Q
    end).

(** Modelled from the spec: [integralVolume2] of integralImage.hxx, the
    three-dimensional accumulator over the squared values. *)
Definition integralVolume2 (p : marray) : marray :=
  MArray (shape p) (fun i =>
    match i with
    | [x; y; z; c] =>
        prefix3 (fun a b d => (elem p [a; b; d; c] * elem p [a; b; d; c])%Q)
                x y z
    | _ => 0%Q
    end).

(** ** Events

    The accesses that the properties below speak about are recorded: a read
    of a corner of the integral array and a write to the output array. *)
Inductive event :=
| EvRead (i : index)
| EvWrite (i : index) (v : Q).

(** ** [average_features] *)

(** Line 32: the box of radius [r] around [(x, y)] leaves the array. *)
Definition out_of_border2 (integral : marray) (x y r : Z) : bool :=
  (x <? r) || (y <? r) || (x + r >? dim integral 0 - 1)
  || (y + r >? dim integral 1 - 1).

(** [cond ? 0 : integral(i)] *)
Definition corner (skip : bool) (integral : marray) (i : index)
  : Q * list event :=
  if skip then (0%Q, []) else (elem integral i, [EvRead i]).

(** Lines 39-44: the four corner lookups and [lr-ll-ur+ul]. *)
Definition corners2 (integral : marray) (x y c r : Z) : Q * list event :=
  let ul := corner ((x =? r) || (y =? r)) integral [x - r - 1; y - r - 1; c] in
  let ll := corner (y =? r) integral [x + r; y - r - 1; c] in
  let ur := corner (x =? r) integral [x - r - 1; y + r; c] in
  let lr := corner false integral [x + r; y + r; c] in
  ((fst lr - fst ll - fst ur + fst ul)%Q,
   snd ul ++ snd ll ++ snd ur ++ snd lr).

(** [(2*r+1)*(2*r+1)] *)
Definition count2 (r : Z) : Z := (2 * r + 1) * (2 * r + 1).

(** Lines 45-50: the divisor [n] at index [ir]. *)
Definition divisor2 (radii : list Z) (ir : nat) : Z :=
  let n := count2 (nth ir radii 0) in
  if (0 <? ir)%nat then n - count2 (nth (ir - 1) radii 0) else n.

(** One turn of the loop of [average_features], on the pair of the
    [averages] vector and the reads made so far. *)
Definition average_features_step (radii : list Z) (x y c : Z)
    (integral : marray) (ir : nat) (st : list Q * list event)
  : list Q * list event :=
  let averages := fst st in
  let r := nth ir radii 0 in
  let nclasses := dim integral 2 in
  if out_of_border2 integral x y r then
    (vec_set averages ir (1 / inject_Z nclasses)%Q, snd st)
  else
    let s := corners2 integral x y c r in
    let sum :=
      if (0 <? ir)%nat then
        let rp := nth (ir - 1) radii 0 in
        let sum_prev :=
          (nth (ir - 1) averages 0 * inject_Z (2 * rp + 1)
           * inject_Z (2 * rp + 1))%Q in
        (fst s - sum_prev)%Q
      else fst s in
    let n := divisor2 radii ir in
    (vec_set averages ir (sum / inject_Z n)%Q, snd st ++ snd s).

(** [average_features(radii, x, y, c, integral, averages)]: the final
    [averages] and the corner reads, in order. *)
Definition average_features (radii : list Z) (x y c : Z) (integral : marray)
    (averages : list Q) : list Q * list event :=
  fold_left (fun st ir => average_features_step radii x y c integral ir st)
            (seq 0 (length radii)) (averages, []).

(** ** [average_features_3d_is] *)

(** Line 80 *)
Definition out_of_border3 (integral : marray) (x y z r : Z) : bool :=
  (x <? r) || (y <? r) || (z <? r) || (x + r >? dim integral 0 - 1)
  || (y + r >? dim integral 1 - 1) || (z + r >? dim integral 2 - 1).

(** Lines 88-100: the eight corner lookups and their signed sum. *)
Definition corners3 (integral : marray) (x y z c r : Z) : Q * list event :=
  let uul := corner ((x =? r) || (y =? r) || (z =? r)) integral
                    [x - r - 1; y - r - 1; z - r - 1; c] in
  let ull := corner ((y =? r) || (z =? r)) integral
                    [x + r; y - r - 1; z - r - 1; c] in
  let uur := corner ((x =? r) || (z =? r)) integral
                    [x - r - 1; y + r; z - r - 1; c] in
  let ulr := corner (z =? r) integral [x + r; y + r; z - r - 1; c] in
  let lul := corner ((x =? r) || (y =? r)) integral
                    [x - r - 1; y - r - 1; z + r; c] in
  let lll := corner (y =? r) integral [x + r; y - r - 1; z + r; c] in
  let lur := corner (x =? r) integral [x - r - 1; y + r; z + r; c] in
  let llr := corner false integral [x + r; y + r; z + r; c] in
  ((fst uur + fst ull + fst llr + fst lul
    - fst ulr - fst uul - fst lur - fst lll)%Q,
   snd uul ++ snd ull ++ snd uur ++ snd ulr
   ++ snd lul ++ snd lll ++ snd lur ++ snd llr).

(** [(2*r+1)*(2*r+1)*(2*r+1)] *)
Definition count3 (r : Z) : Z := (2 * r + 1) * (2 * r + 1) * (2 * r + 1).

(** Lines 102-112: the divisor [n] at index [ir]. *)
Definition divisor3 (radii : list Z) (ir : nat) : Z :=
  let n := count3 (nth ir radii 0) in
  if (0 <? ir)%nat then n - count3 (nth (ir - 1) radii 0) else n.

Definition average_features_3d_is_step (radii : list Z) (x y z c : Z)
    (integral : marray) (ir : nat) (st : list Q * list event)
  : list Q * list event :=
  let averages := fst st in
  let r := nth ir radii 0 in
  let nclasses := dim integral 3 in
  if out_of_border3 integral x y z r then
    (vec_set averages ir (1 / inject_Z nclasses)%Q, snd st)
  else
    let s := corners3 integral x y z c r in
    let sum :=
      if (0 <? ir)%nat then
        let n_prev := count3 (nth (ir - 1) radii 0) in
        let sum_prev := (nth (ir - 1) averages 0 * inject_Z n_prev)%Q in
        (fst s - sum_prev)%Q
      else fst s in
    let n := divisor3 radii ir in
    (vec_set averages ir (sum / inject_Z n)%Q, snd st ++ snd s).

Definition average_features_3d_is (radii : list Z) (x y z c : Z)
    (integral : marray) (averages : list Q) : list Q * list event :=
  fold_left
    (fun st ir => average_features_3d_is_step radii x y z c integral ir st)
    (seq 0 (length radii)) (averages, []).

(** ** Drivers *)

(** The three views a driver receives, and the recorded events. *)
Record mem := Mem {
  sizes : list Z;
  predictions : marray;
  res : marray;
  trace : list event
}.

(** [res(i) = v] *)
Definition write_res (i : index) (v : Q) (m : mem) : mem :=
  Mem (sizes m) (predictions m) (store (res m) i v)
      (trace m ++ [EvWrite i v]).

(** The reads made by a call on a local integral array. *)
Definition log_reads (evs : list event) (m : mem) : mem :=
  Mem (sizes m) (predictions m) (res m) (trace m ++ evs).

(** [0, 1, ..., n-1] *)
Definition zrange (n : Z) : list Z := map Z.of_nat (seq 0 (Z.to_nat n)).

(** [for (IND i = 0; i < n; ++i) body] *)
Definition for_loop {S : Type} (n : Z) (body : Z -> S -> S) (s : S) : S :=
  fold_left (fun s i => body i s) (zrange n) s.

(** [std::vector<T> v(n)] *)
Definition new_vector (n : Z) : list Q := repeat 0%Q (Z.to_nat n).

Definition avContext2Dmulti (m0 : mem) : mem :=
  let nx := dim (predictions m0) 0 in
  let ny := dim (predictions m0) 1 in
  let nclasses := dim (predictions m0) 2 in
  let nnewfeatures := Z.of_nat (length (sizes m0)) in
  let integral := integralImage (predictions m0) in
  for_loop nclasses (fun c =>
  for_loop nx (fun x =>
  for_loop ny (fun y m =>
    let newf :=
      average_features (sizes m) x y c integral (new_vector nnewfeatures) in
    let m := log_reads (snd newf) m in
    for_loop nnewfeatures (fun ii =>
      write_res [x; y; c * nnewfeatures + ii]
                (nth (Z.to_nat ii) (fst newf) 0%Q)) m))) m0.

Definition varContext2Dmulti (m0 : mem) : mem :=
  let nx := dim (predictions m0) 0 in
  let ny := dim (predictions m0) 1 in
  let nclasses := dim (predictions m0) 2 in
  let nnewfeatures := Z.of_nat (length (sizes m0)) in
  let integral := integralImage (predictions m0) in
  let integral2 := integralImage2 (predictions m0) in
  for_loop nclasses (fun c =>
  for_loop nx (fun x =>
  for_loop ny (fun y m =>
    let newf :=
      average_features (sizes m) x y c integral (new_vector nnewfeatures) in
    let m := log_reads (snd newf) m in
    let newf2 :=
      average_features (sizes m) x y c integral2 (new_vector nnewfeatures) in
    let m := log_reads (snd newf2) m in
    let m :=
      for_loop nnewfeatures (fun ii =>
        write_res [x; y; c * 2 * nnewfeatures + ii]
                  (nth (Z.to_nat ii) (fst newf) 0%Q)) m in
    for_loop nnewfeatures (fun ii =>
      write_res [x; y; c * 2 * nnewfeatures + nnewfeatures + ii]
                (nth (Z.to_nat ii) (fst newf2) 0
                 - nth (Z.to_nat ii) (fst newf) 0
                   * nth (Z.to_nat ii) (fst newf) 0)%Q) m))) m0.

Definition varContext3Dmulti (m0 : mem) : mem :=
  let nx := dim (predictions m0) 0 in
  let ny := dim (predictions m0) 1 in
  let nz := dim (predictions m0) 2 in
  let nclasses := dim (predictions m0) 3 in
  let nnewfeatures := Z.of_nat (length (sizes m0)) in
  let integral := integralVolume (predictions m0) in
  let integral2 := integralVolume2 (predictions m0) in
  for_loop nclasses (fun c =>
  for_loop nx (fun x =>
  for_loop ny (fun y =>
  for_loop nz (fun z m =>
    let newf :=
      average_features_3d_is (sizes m) x y z c integral
                             (new_vector nnewfeatures) in
    let m := log_reads (snd newf) m in
    let newf2 :=
      average_features_3d_is (sizes m) x y z c integral2
                             (new_vector nnewfeatures) in
    let m := log_reads (snd newf2) m in
    let m :=
      for_loop nnewfeatures (fun ii =>
        write_res [x; y; z; c * 2 * nnewfeatures + ii]
                  (nth (Z.to_nat ii) (fst newf) 0%Q)) m in
    for_loop nnewfeatures (fun ii =>
      write_res [x; y; z; c * 2 * nnewfeatures + nnewfeatures + ii]
                (nth (Z.to_nat ii) (fst newf2) 0
                 - nth (Z.to_nat ii) (fst newf) 0
                   * nth (Z.to_nat ii) (fst newf) 0)%Q) m)))) m0.

(** ** Values stored by one turn of the loops

    The value that one turn of the loop of [average_features] stores at
    index [ir] when it finds [prev] at index [ir-1]. *)
Definition feature2 (radii : list Z) (x y c : Z) (integral : marray)
    (ir : nat) (prev : Q) : Q :=
  let r := nth ir radii 0 in
  if out_of_border2 integral x y r then (1 / inject_Z (dim integral 2))%Q
  else
    let rp := nth (ir - 1) radii 0 in
    ((if (0 <? ir)%nat
      then fst (corners2 integral x y c r)
           - prev * inject_Z (2 * rp + 1) * inject_Z (2 * rp + 1)
      else fst (corners2 integral x y c r))
     / inject_Z (divisor2 radii ir))%Q.

(** The same for [average_features_3d_is]. *)
Definition feature3 (radii : list Z) (x y z c : Z) (integral : marray)
    (ir : nat) (prev : Q) : Q :=
  let r := nth ir radii 0 in
  if out_of_border3 integral x y z r then (1 / inject_Z (dim integral 3))%Q
  else
    let n_prev := count3 (nth (ir - 1) radii 0) in
    ((if (0 <? ir)%nat
      then fst (corners3 integral x y z c r) - prev * inject_Z n_prev
      else fst (corners3 integral x y z c r))
     / inject_Z (divisor3 radii ir))%Q.

(** ** Events of a driver call *)

(** The effect of a list of events on the output array: the writes, in
    order. *)
Definition replay (evs : list event) (a : marray) : marray :=
  fold_left (fun a e =>
               match e with
               | EvWrite i v => store a i v
               | EvRead _ => a
               end) evs a.

(** The memory after the events [evs] took place. *)
Definition emit (evs : list event) (m : mem) : mem :=
  Mem (sizes m) (predictions m) (replay evs (res m)) (trace m ++ evs).

(** [k], started with the radius list [sz], does exactly [evs]. *)
Definition emits (sz : list Z) (k : mem -> mem) (evs : list event) : Prop :=
  forall m, sizes m = sz -> k m = emit evs m.

(** The events recorded by the call [k] on [m]. *)
Definition new_events (k : mem -> mem) (m : mem) : list event :=
  skipn (length (trace m)) (trace (k m)).

Definition is_read (e : event) : Prop :=
  match e with EvRead _ => True | EvWrite _ _ => False end.

(** Events of the loop storing [val 0], ..., [val (n-1)] at channels
    [base], ..., [base+n-1] of position [pos]. *)
Definition copy_events (pos : list Z) (base n : Z) (val : Z -> Q)
  : list event :=
  flat_map (fun ii => [EvWrite (pos ++ [base + ii]) (val ii)]) (zrange n).

(** The vector [newf] of the two-dimensional drivers at [(x, y, c)]. *)
Definition newf2d (sz : list Z) (integral : marray) (x y c : Z)
  : list Q * list event :=
  average_features sz x y c integral (new_vector (Z.of_nat (length sz))).

(** The vector [newf] of the three-dimensional driver at [(x, y, z, c)]. *)
Definition newf3d (sz : list Z) (integral : marray) (x y z c : Z)
  : list Q * list event :=
  average_features_3d_is sz x y z c integral
                         (new_vector (Z.of_nat (length sz))).

(** The mean and the variance that the drivers store for radius index
    [ii], from the vectors [newf] and [newf2]. *)
Definition mean_of (newf : list Q) (ii : Z) : Q := nth (Z.to_nat ii) newf 0%Q.

Definition variance_of (newf newf2 : list Q) (ii : Z) : Q :=
  (nth (Z.to_nat ii) newf2 0 - nth (Z.to_nat ii) newf 0
                               * nth (Z.to_nat ii) newf 0)%Q.

Definition av2_events (sz : list Z) (p : marray) : list event :=
  let nnew := Z.of_nat (length sz) in
  flat_map (fun c =>
  flat_map (fun x =>
  flat_map (fun y =>
    let newf := newf2d sz (integralImage p) x y c in
    snd newf ++ copy_events [x; y] (c * nnew) nnew (mean_of (fst newf)))
  (zrange (dim p 1))) (zrange (dim p 0))) (zrange (dim p 2)).

Definition var2_events (sz : list Z) (p : marray) : list event :=
  let nnew := Z.of_nat (length sz) in
  flat_map (fun c =>
  flat_map (fun x =>
  flat_map (fun y =>
    let newf := newf2d sz (integralImage p) x y c in
    let newf2 := newf2d sz (integralImage2 p) x y c in
    snd newf ++ snd newf2
    ++ copy_events [x; y] (c * 2 * nnew) nnew (mean_of (fst newf))
    ++ copy_events [x; y] (c * 2 * nnew + nnew) nnew
                   (variance_of (fst newf) (fst newf2)))
  (zrange (dim p 1))) (zrange (dim p 0))) (zrange (dim p 2)).

Definition var3_events (sz : list Z) (p : marray) : list event :=
  let nnew := Z.of_nat (length sz) in
  flat_map (fun c =>
  flat_map (fun x =>
  flat_map (fun y =>
  flat_map (fun z =>
    let newf := newf3d sz (integralVolume p) x y z c in
    let newf2 := newf3d sz (integralVolume2 p) x y z c in
    snd newf ++ snd newf2
    ++ copy_events [x; y; z] (c * 2 * nnew) nnew (mean_of (fst newf))
    ++ copy_events [x; y; z] (c * 2 * nnew + nnew) nnew
                   (variance_of (fst newf) (fst newf2)))
  (zrange (dim p 2))) (zrange (dim p 1))) (zrange (dim p 0)))
  (zrange (dim p 3)).

(** ** Radius lists and sample inputs *)

(** Non-negative, strictly increasing radii. *)
Definition increasing_radii (radii : list Z) : Prop :=
  (forall i, (i < length radii)%nat -> 0 <= nth i radii 0) /\
  (forall i, (S i < length radii)%nat -> nth i radii 0 < nth (S i) radii 0).

(** A 5x5 one-channel field that is 1 at the centre and 0 elsewhere. *)
Definition center_field : marray :=
  MArray [5; 5; 1] (fun i =>
    match i with
    | [x; y; _] => if (x =? 2) && (y =? 2) then 1%Q else 0%Q
    | _ => 0%Q
    end).

(** A 5x5 one-channel field that is 1 on the eight neighbours of the
    centre and 0 elsewhere. *)
Definition ring_field : marray :=
  MArray [5; 5; 1] (fun i =>
    match i with
    | [x; y; _] =>
        if (1 <=? x) && (x <=? 3) && (1 <=? y) && (y <=? 3)
           && negb ((x =? 2) && (y =? 2))
        then 1%Q else 0%Q
    | _ => 0%Q
    end).

(** A 3x3x3 one-channel volume holding [x + 2*y + 3*z]. *)
Definition ramp_volume : marray :=
  MArray [3; 3; 3; 1] (fun i =>
    match i with
    | [x; y; z; _] => inject_Z (x + 2 * y + 3 * z)
    | _ => 0%Q
    end).

(** A 2x2 two-channel field of zeros. *)
Definition zero_field2 : marray := MArray [2; 2; 2] (fun _ => 0%Q).

(** An output array of the given shape, filled with zeros. *)
Definition zero_array (sh : list Z) : marray := MArray sh (fun _ => 0%Q).


(** Sample calls. *)
Definition border_call : mem :=
  Mem [1] zero_field2 (zero_array [2; 2; 4]) [].

Definition ring_call : mem :=
  Mem [0; 1; 2] ring_field (zero_array [5; 5; 6]) [].

Definition center_call : mem :=
  Mem [0; 1] center_field (zero_array [5; 5; 4]) [].

Definition volume_call : mem :=
  Mem [0; 1] ramp_volume (zero_array [3; 3; 3; 4]) [].

Definition empty_call : mem :=
  Mem [] center_field (zero_array [5; 5; 0]) [].

Definition empty_volume_call : mem :=
  Mem [] ramp_volume (zero_array [3; 3; 3; 0]) [].


Definition const_volume : marray := MArray [3; 3; 3; 1] (fun _ => 2%Q).



(** ** Further notions used in the properties *)

(** A read of channel [c] inside the first two extents of [I]. *)
Definition read_in_bounds2 (I : marray) (c : Z) (e : event) : Prop :=
  exists a b, e = EvRead [a; b; c]
              /\ 0 <= a < dim I 0 /\ 0 <= b < dim I 1.

(** A read of channel [c] inside the first three extents of [I]. *)
Definition read_in_bounds3 (I : marray) (c : Z) (e : event) : Prop :=
  exists a b d, e = EvRead [a; b; d; c]
                /\ 0 <= a < dim I 0 /\ 0 <= b < dim I 1 /\ 0 <= d < dim I 2.

(** [lo <= k <= hi] *)
Definition within (lo hi k : Z) : bool := (lo <=? k) && (k <=? hi).

(** [(a, b)] lies in the square of radius [r] around [(x, y)]. *)
Definition in_box2 (x y r a b : Z) : bool :=
  within (x - r) (x + r) a && within (y - r) (y + r) b.

(** [(a, b, d)] lies in the cube of radius [r] around [(x, y, z)]. *)
Definition in_box3 (x y z r a b d : Z) : bool :=
  within (x - r) (x + r) a
  && (within (y - r) (y + r) b && within (z - r) (z + r) d).

(** [I] with every element outside channel [c] changed. *)
Definition off_channel_changed (I : marray) (c : Z) : marray :=
  MArray (shape I) (fun i =>
    if last i 0 =? c then elem I i else (elem I i + 1)%Q).

(** Sample fields: a linear combination, and a field changed away from
    a box. *)
Definition mix_field : marray :=
  MArray [5; 5; 1] (fun i =>
    (2 * elem center_field i + 3 * elem ring_field i)%Q).

Definition mix_volume : marray :=
  MArray [3; 3; 3; 1] (fun i =>
    (2 * elem ramp_volume i + 3 * elem const_volume i)%Q).

Definition far_changed2 (F : marray) (x y r : Z) : marray :=
  MArray (shape F) (fun i =>
    match i with
    | [a; b; _] => if in_box2 x y r a b then elem F i else (elem F i + 5)%Q
    | _ => elem F i
    end).

Definition far_changed3 (F : marray) (x y z r : Z) : marray :=
  MArray (shape F) (fun i =>
    match i with
    | [a; b; d; _] =>
        if in_box3 x y z r a b d then elem F i else (elem F i + 5)%Q
    | _ => elem F i
    end).

(** ** [int] counts

    The counts [n] and [n_prev] are C++ [int]s.  A radius that is out of
    border is not bounded by the array, and its count still enters the
    subtraction of the next turn, so the 32-bit wrap-around of [n] is
    reached on small arrays.  The definitions below are the loops of
    [average_features] and [average_features_3d_is] with that arithmetic
    written out: a value stored in an [int] is reduced to
    [-2^31 .. 2^31-1].  Where the counts fit, they agree with the
    definitions above. *)

(** [INT_MAX] *)
Definition max_int : Z := 2 ^ 31 - 1.

(** The value an [int] holds after it is assigned [v]. *)
Definition int_wrap (v : Z) : Z := (v + 2 ^ 31) mod 2 ^ 32 - 2 ^ 31.

(** [int n = (2*r+1)*(2*r+1)] *)
Definition count2_int (r : Z) : Z := int_wrap ((2 * r + 1) * (2 * r + 1)).

(** [int n = (2*r+1)*(2*r+1)*(2*r+1)] *)
Definition count3_int (r : Z) : Z :=
  int_wrap ((2 * r + 1) * (2 * r + 1) * (2 * r + 1)).

(** Lines 45-50, in [int]. *)
Definition divisor2_int (radii : list Z) (ir : nat) : Z :=
  let n := count2_int (nth ir radii 0) in
  if (0 <? ir)%nat then int_wrap (n - count2_int (nth (ir - 1) radii 0))
  else n.

(** Lines 102-112, in [int]. *)
Definition divisor3_int (radii : list Z) (ir : nat) : Z :=
  let n := count3_int (nth ir radii 0) in
  if (0 <? ir)%nat then int_wrap (n - count3_int (nth (ir - 1) radii 0))
  else n.

(** One turn of the loop of [average_features]; [sum_prev] is a product
    in [T] (line 47), [n] is an [int] (lines 45, 49). *)
Definition average_features_int_step (radii : list Z) (x y c : Z)
    (integral : marray) (ir : nat) (st : list Q * list event)
  : list Q * list event :=
  let averages := fst st in
  let r := nth ir radii 0 in
  let nclasses := dim integral 2 in
  if out_of_border2 integral x y r then
    (vec_set averages ir (1 / inject_Z nclasses)%Q, snd st)
  else
    let s := corners2 integral x y c r in
    let sum :=
      if (0 <? ir)%nat then
        let rp := nth (ir - 1) radii 0 in
        let sum_prev :=
          (nth (ir - 1) averages 0 * inject_Z (2 * rp + 1)
           * inject_Z (2 * rp + 1))%Q in
        (fst s - sum_prev)%Q
      else fst s in
    let n := divisor2_int radii ir in
    (vec_set averages ir (sum / inject_Z n)%Q, snd st ++ snd s).

Definition average_features_int (radii : list Z) (x y c : Z)
    (integral : marray) (averages : list Q) : list Q * list event :=
  fold_left (fun st ir => average_features_int_step radii x y c integral ir st)
            (seq 0 (length radii)) (averages, []).

(** One turn of the loop of [average_features_3d_is]; [n_prev] and [n]
    are [int]s (lines 102, 108, 111). *)
Definition average_features_3d_is_int_step (radii : list Z) (x y z c : Z)
    (integral : marray) (ir : nat) (st : list Q * list event)
  : list Q * list event :=
  let averages := fst st in
  let r := nth ir radii 0 in
  let nclasses := dim integral 3 in
  if out_of_border3 integral x y z r then
    (vec_set averages ir (1 / inject_Z nclasses)%Q, snd st)
  else
    let s := corners3 integral x y z c r in
    let sum :=
      if (0 <? ir)%nat then
        let n_prev := count3_int (nth (ir - 1) radii 0) in
        let sum_prev := (nth (ir - 1) averages 0 * inject_Z n_prev)%Q in
        (fst s - sum_prev)%Q
      else fst s in
    let n := divisor3_int radii ir in
    (vec_set averages ir (sum / inject_Z n)%Q, snd st ++ snd s).

Definition average_features_3d_is_int (radii : list Z) (x y z c : Z)
    (integral : marray) (averages : list Q) : list Q * list event :=
  fold_left
    (fun st ir => average_features_3d_is_int_step radii x y z c integral ir st)
    (seq 0 (length radii)) (averages, []).

(** The values stored by one turn of these loops. *)
Definition feature2_int (radii : list Z) (x y c : Z) (integral : marray)
    (ir : nat) (prev : Q) : Q :=
  let r := nth ir radii 0 in
  if out_of_border2 integral x y r then (1 / inject_Z (dim integral 2))%Q
  else
    let rp := nth (ir - 1) radii 0 in
    ((if (0 <? ir)%nat
      then fst (corners2 integral x y c r)
           - prev * inject_Z (2 * rp + 1) * inject_Z (2 * rp + 1)
      else fst (corners2 integral x y c r))
     / inject_Z (divisor2_int radii ir))%Q.

Definition feature3_int (radii : list Z) (x y z c : Z) (integral : marray)
    (ir : nat) (prev : Q) : Q :=
  let r := nth ir radii 0 in
  if out_of_border3 integral x y z r then (1 / inject_Z (dim integral 3))%Q
  else
    let n_prev := count3_int (nth (ir - 1) radii 0) in
    ((if (0 <? ir)%nat
      then fst (corners3 integral x y z c r) - prev * inject_Z n_prev
      else fst (corners3 integral x y z c r))
     / inject_Z (divisor3_int radii ir))%Q.

(** ** Properties *)

(** *** Finite sums *)

Lemma sum_from_ext (lo : Z) (n : nat) (f g : Z -> Q) :
  (forall k, lo <= k < lo + Z.of_nat n -> f k == g k) ->
  sum_from lo n f == sum_from lo n g.
Proof.
  revert lo. induction n as [|n IH]; intros lo H; simpl.
  - reflexivity.
  - rewrite (H lo) by lia. rewrite (IH (lo + 1)).
    + reflexivity.
    + intros k Hk. apply H. lia.
Qed.

Lemma sum_from_app (lo : Z) (n m : nat) (f : Z -> Q) :
  sum_from lo (n + m) f
  == (sum_from lo n f + sum_from (lo + Z.of_nat n) m f)%Q.
Proof.
  revert lo. induction n as [|n IH]; intros lo.
  - simpl. replace (lo + 0) with lo by lia. ring.
  - cbn [Nat.add sum_from]. rewrite IH.
    replace (lo + 1 + Z.of_nat n) with (lo + Z.of_nat (S n)) by lia. ring.
Qed.

Lemma sum_from_sub (lo : Z) (n : nat) (f g : Z -> Q) :
  (sum_from lo n f - sum_from lo n g)%Q
  == sum_from lo n (fun k => (f k - g k)%Q).
Proof.
  revert lo. induction n as [|n IH]; intros lo; simpl.
  - ring.
  - rewrite <- IH. ring.
Qed.

Lemma sum_from_zero (lo : Z) (n : nat) (f : Z -> Q) :
  (forall k, f k == 0) -> sum_from lo n f == 0.
Proof.
  intros H. revert lo. induction n as [|n IH]; intros lo; simpl.
  - reflexivity.
  - rewrite H, IH. ring.
Qed.



Lemma sum_upto_diff (f : Z -> Q) (lo hi : Z) :
  0 <= lo <= hi + 1 ->
  (sum_upto hi f - sum_upto (lo - 1) f)%Q
  == sum_from lo (Z.to_nat (hi - lo + 1)) f.
Proof.
  intros H. unfold sum_upto.
  replace (Z.to_nat (hi + 1))
    with (Z.to_nat lo + Z.to_nat (hi - lo + 1))%nat by lia.
  rewrite sum_from_app.
  replace (lo - 1 + 1) with lo by lia.
  replace (0 + Z.of_nat (Z.to_nat lo)) with lo by lia. ring.
Qed.

Lemma sum_upto_ext (hi : Z) (f g : Z -> Q) :
  (forall k, 0 <= k <= hi -> f k == g k) -> sum_upto hi f == sum_upto hi g.
Proof.
  intros H. apply sum_from_ext. intros k Hk. apply H. lia.
Qed.

Lemma sum_upto_sub (hi : Z) (f g : Z -> Q) :
  (sum_upto hi f - sum_upto hi g)%Q
  == sum_upto hi (fun k => (f k - g k)%Q).
Proof. apply sum_from_sub. Qed.

(** *** Inclusion-exclusion on prefix sums *)

Lemma prefix2_edge (g : Z -> Z -> Q) (x y : Z) :
  x = -1 \/ y = -1 -> prefix2 g x y == 0.
Proof.
  intros [-> | ->]; unfold prefix2.
  - reflexivity.
  - apply sum_from_zero. intros k. reflexivity.
Qed.

Lemma prefix2_diff (g : Z -> Z -> Q) (X y r : Z) :
  0 <= r <= y ->
  (prefix2 g X (y + r) - prefix2 g X (y - r - 1))%Q
  == sum_upto X (fun a => sum_from (y - r) (Z.to_nat (2 * r + 1)) (g a)).
Proof.
  intros H. unfold prefix2. rewrite sum_upto_sub.
  apply sum_upto_ext. intros a _.
  replace (y - r - 1) with ((y - r) - 1) by lia.
  rewrite sum_upto_diff by lia.
  replace (y + r - (y - r) + 1) with (2 * r + 1) by lia. reflexivity.
Qed.

Lemma incl_excl2 (g : Z -> Z -> Q) (x y r : Z) :
  0 <= r <= x -> r <= y ->
  (prefix2 g (x + r) (y + r) - prefix2 g (x + r) (y - r - 1)
   - prefix2 g (x - r - 1) (y + r) + prefix2 g (x - r - 1) (y - r - 1))%Q
  == sum_from (x - r) (Z.to_nat (2 * r + 1)) (fun a =>
     sum_from (y - r) (Z.to_nat (2 * r + 1)) (g a)).
Proof.
  intros Hx Hy.
  transitivity
    ((prefix2 g (x + r) (y + r) - prefix2 g (x + r) (y - r - 1))
     - (prefix2 g (x - r - 1) (y + r)
        - prefix2 g (x - r - 1) (y - r - 1)))%Q.
  { ring. }
  rewrite !prefix2_diff by lia.
  replace (x - r - 1) with ((x - r) - 1) by lia.
  rewrite sum_upto_diff by lia.
  replace (x + r - (x - r) + 1) with (2 * r + 1) by lia. reflexivity.
Qed.

Lemma prefix3_edge (g : Z -> Z -> Z -> Q) (x y z : Z) :
  x = -1 \/ y = -1 \/ z = -1 -> prefix3 g x y z == 0.
Proof.
  intros [-> | [-> | ->]]; unfold prefix3.
  - reflexivity.
  - apply sum_from_zero. intros k. reflexivity.
  - apply sum_from_zero. intros k. apply sum_from_zero. intros j.
    reflexivity.
Qed.

Lemma prefix3_diff (g : Z -> Z -> Z -> Q) (X Y z r : Z) :
  0 <= r <= z ->
  (prefix3 g X Y (z + r) - prefix3 g X Y (z - r - 1))%Q
  == prefix2 (fun a b => sum_from (z - r) (Z.to_nat (2 * r + 1)) (g a b)) X Y.
Proof.
  intros H. unfold prefix3, prefix2. rewrite sum_upto_sub.
  apply sum_upto_ext. intros a _. rewrite sum_upto_sub.
  apply sum_upto_ext. intros b _.
  replace (z - r - 1) with ((z - r) - 1) by lia.
  rewrite sum_upto_diff by lia.
  replace (z + r - (z - r) + 1) with (2 * r + 1) by lia. reflexivity.
Qed.

Lemma incl_excl3 (g : Z -> Z -> Z -> Q) (x y z r : Z) :
  0 <= r <= x -> r <= y -> r <= z ->
  (prefix3 g (x - r - 1) (y + r) (z - r - 1)
   + prefix3 g (x + r) (y - r - 1) (z - r - 1)
   + prefix3 g (x + r) (y + r) (z + r)
   + prefix3 g (x - r - 1) (y - r - 1) (z + r)
   - prefix3 g (x + r) (y + r) (z - r - 1)
   - prefix3 g (x - r - 1) (y - r - 1) (z - r - 1)
   - prefix3 g (x - r - 1) (y + r) (z + r)
   - prefix3 g (x + r) (y - r - 1) (z + r))%Q
  == sum_from (x - r) (Z.to_nat (2 * r + 1)) (fun a =>
     sum_from (y - r) (Z.to_nat (2 * r + 1)) (fun b =>
     sum_from (z - r) (Z.to_nat (2 * r + 1)) (g a b))).
Proof.
  intros Hx Hy Hz.
  rewrite <- (incl_excl2
    (fun a b => sum_from (z - r) (Z.to_nat (2 * r + 1)) (g a b)) x y r)
    by lia.
  rewrite <- !(prefix3_diff g) by lia. ring.
Qed.

(** *** Corner lookups *)

Lemma out_of_border2_false (I : marray) (x y r : Z) :
  out_of_border2 I x y r = false <->
  r <= x /\ r <= y /\ x + r <= dim I 0 - 1 /\ y + r <= dim I 1 - 1.
Proof.
  unfold out_of_border2. rewrite !orb_false_iff, !Z.gtb_ltb, !Z.ltb_ge.
  tauto.
Qed.

Lemma out_of_border3_false (I : marray) (x y z r : Z) :
  out_of_border3 I x y z r = false <->
  r <= x /\ r <= y /\ r <= z /\ x + r <= dim I 0 - 1
  /\ y + r <= dim I 1 - 1 /\ z + r <= dim I 2 - 1.
Proof.
  unfold out_of_border3. rewrite !orb_false_iff, !Z.gtb_ltb, !Z.ltb_ge.
  tauto.
Qed.

Lemma dim_integral2 (F I : marray) (k : nat) :
  is_integral2 F I -> dim I k = dim F k.
Proof. intros [H _]. unfold dim. now rewrite H. Qed.

Lemma dim_integral3 (F I : marray) (k : nat) :
  is_integral3 F I -> dim I k = dim F k.
Proof. intros [H _]. unfold dim. now rewrite H. Qed.

Lemma corner_prefix2 (F I : marray) (skip : bool) (X Y c : Z) :
  is_integral2 F I ->
  (skip = true -> X = -1 \/ Y = -1) ->
  (skip = false -> 0 <= X < dim F 0 /\ 0 <= Y < dim F 1) ->
  0 <= c < dim F 2 ->
  fst (corner skip I [X; Y; c]) == prefix2 (fun a b => elem F [a; b; c]) X Y.
Proof.
  intros [_ HI] Ht Hf Hc. unfold corner. destruct skip; cbn [fst].
  - symmetry. apply prefix2_edge. auto.
  - destruct Hf as [HX HY]; [reflexivity|]. now apply HI.
Qed.

Lemma corner_prefix3 (F I : marray) (skip : bool) (X Y Z0 c : Z) :
  is_integral3 F I ->
  (skip = true -> X = -1 \/ Y = -1 \/ Z0 = -1) ->
  (skip = false ->
   0 <= X < dim F 0 /\ 0 <= Y < dim F 1 /\ 0 <= Z0 < dim F 2) ->
  0 <= c < dim F 3 ->
  fst (corner skip I [X; Y; Z0; c])
  == prefix3 (fun a b d => elem F [a; b; d; c]) X Y Z0.
Proof.
  intros [_ HI] Ht Hf Hc. unfold corner. destruct skip; cbn [fst].
  - symmetry. apply prefix3_edge. auto.
  - destruct Hf as (HX & HY & HZ); [reflexivity|]. now apply HI.
Qed.

Ltac skip_cases :=
  repeat match goal with
    | |- context [?a =? ?b] => destruct (Z.eqb_spec a b)
    end;
  cbn [orb]; intros; try discriminate; lia.

Lemma corners2_box_sum (F I : marray) (x y c r : Z) :
  is_integral2 F I -> 0 <= r -> 0 <= c < dim F 2 ->
  out_of_border2 I x y r = false ->
  fst (corners2 I x y c r) == box_sum2 F x y c r.
Proof.
  intros HI Hr Hc Hb. apply out_of_border2_false in Hb.
  rewrite !(dim_integral2 F I) in Hb by assumption.
  unfold corners2, box_sum2. cbn [fst].
  rewrite !(corner_prefix2 F I) by (assumption || skip_cases).
  apply incl_excl2; lia.
Qed.

Lemma corners3_box_sum (F I : marray) (x y z c r : Z) :
  is_integral3 F I -> 0 <= r -> 0 <= c < dim F 3 ->
  out_of_border3 I x y z r = false ->
  fst (corners3 I x y z c r) == box_sum3 F x y z c r.
Proof.
  intros HI Hr Hc Hb. apply out_of_border3_false in Hb.
  rewrite !(dim_integral3 F I) in Hb by assumption.
  unfold corners3, box_sum3. cbn [fst].
  rewrite !(corner_prefix3 F I) by (assumption || skip_cases).
  apply (incl_excl3 (fun a b d => elem F [a; b; d; c])); lia.
Qed.

Lemma integralImage_is_integral2 (F : marray) :
  is_integral2 F (integralImage F).
Proof. split; [reflexivity | intros; reflexivity]. Qed.

Lemma integralVolume_is_integral3 (F : marray) :
  is_integral3 F (integralVolume F).
Proof. split; [reflexivity | intros; reflexivity]. Qed.

(** *** The [averages] vector *)

Lemma vec_set_length (v : list Q) (i : nat) (q : Q) :
  length (vec_set v i q) = length v.
Proof.
  revert i. induction v as [|h t IH]; intros [|i]; simpl; auto.
Qed.

Lemma nth_vec_set_eq (v : list Q) (i : nat) (q d : Q) :
  (i < length v)%nat -> nth i (vec_set v i q) d = q.
Proof.
  revert i. induction v as [|h t IH]; intros [|i] H; simpl in *;
    try lia; auto. apply IH. lia.
Qed.

Lemma nth_vec_set_neq (v : list Q) (i j : nat) (q d : Q) :
  i <> j -> nth j (vec_set v i q) d = nth j v d.
Proof.
  revert i j. induction v as [|h t IH]; intros [|i] [|j] H; simpl;
    try congruence; auto.
Qed.

(** A loop whose turn [ir] stores at index [ir] only. *)
Section IndexedLoop.
Variable step : nat -> list Q * list event -> list Q * list event.
Hypothesis step_length :
  forall ir st, length (fst (step ir st)) = length (fst st).
Hypothesis step_other :
  forall ir j st, j <> ir -> nth j (fst (step ir st)) 0%Q = nth j (fst st) 0%Q.

Let run (l : list nat) (st : list Q * list event) :=
  fold_left (fun st ir => step ir st) l st.

Lemma run_length (l : list nat) (st : list Q * list event) :
  length (fst (run l st)) = length (fst st).
Proof.
  revert st. induction l as [|i l IH]; intros st; simpl; auto.
  unfold run in IH. rewrite IH. apply step_length.
Qed.

Lemma run_other (l : list nat) (j : nat) (st : list Q * list event) :
  ~ In j l -> nth j (fst (run l st)) 0%Q = nth j (fst st) 0%Q.
Proof.
  revert st. induction l as [|i l IH]; intros st H; simpl; auto.
  unfold run in IH. rewrite IH.
  - apply step_other. intros ->. apply H. now left.
  - intros Hin. apply H. now right.
Qed.

(** The value found at index [ir] after the loop is the one stored by
    turn [ir], and that turn saw at index [ir-1] the value found there
    after the loop. *)
Lemma run_turn (n ir : nat) (st : list Q * list event) :
  (ir < n)%nat ->
  exists before,
    length (fst before) = length (fst st) /\
    nth ir (fst (run (seq 0 n) st)) 0%Q = nth ir (fst (step ir before)) 0%Q /\
    ((0 < ir)%nat ->
     nth (ir - 1) (fst before) 0%Q
     = nth (ir - 1) (fst (run (seq 0 n) st)) 0%Q).
Proof.
  intros H.
  replace n with (ir + S (n - ir - 1))%nat by lia.
  rewrite seq_app. cbn [seq Nat.add].
  unfold run. rewrite fold_left_app. cbn [fold_left].
  fold (run (seq 0 ir) st).
  exists (run (seq 0 ir) st). split; [|split].
  - apply run_length.
  - fold (run (seq (S ir) (n - ir - 1)) (step ir (run (seq 0 ir) st))).
    apply run_other. rewrite in_seq. lia.
  - intros Hpos.
    fold (run (seq (S ir) (n - ir - 1)) (step ir (run (seq 0 ir) st))).
    rewrite (run_other (seq (S ir) (n - ir - 1)))
      by (rewrite in_seq; lia).
    rewrite step_other by lia. reflexivity.
Qed.
End IndexedLoop.

Lemma step2_length radii x y c I ir st :
  length (fst (average_features_step radii x y c I ir st)) = length (fst st).
Proof.
  unfold average_features_step.
  destruct (out_of_border2 I x y (nth ir radii 0)); cbn [fst];
    apply vec_set_length.
Qed.

Lemma step2_other radii x y c I ir j st :
  j <> ir ->
  nth j (fst (average_features_step radii x y c I ir st)) 0%Q
  = nth j (fst st) 0%Q.
Proof.
  intros H. unfold average_features_step.
  destruct (out_of_border2 I x y (nth ir radii 0)); cbn [fst];
    apply nth_vec_set_neq; congruence.
Qed.

Lemma step2_value radii x y c I ir st :
  (ir < length (fst st))%nat ->
  nth ir (fst (average_features_step radii x y c I ir st)) 0%Q
  = feature2 radii x y c I ir (nth (ir - 1) (fst st) 0%Q).
Proof.
  intros H. unfold average_features_step, feature2.
  destruct (out_of_border2 I x y (nth ir radii 0)); cbn [fst];
    rewrite nth_vec_set_eq by assumption; reflexivity.
Qed.

Lemma step3_length radii x y z c I ir st :
  length (fst (average_features_3d_is_step radii x y z c I ir st))
  = length (fst st).
Proof.
  unfold average_features_3d_is_step.
  destruct (out_of_border3 I x y z (nth ir radii 0)); cbn [fst];
    apply vec_set_length.
Qed.

Lemma step3_other radii x y z c I ir j st :
  j <> ir ->
  nth j (fst (average_features_3d_is_step radii x y z c I ir st)) 0%Q
  = nth j (fst st) 0%Q.
Proof.
  intros H. unfold average_features_3d_is_step.
  destruct (out_of_border3 I x y z (nth ir radii 0)); cbn [fst];
    apply nth_vec_set_neq; congruence.
Qed.

Lemma step3_value radii x y z c I ir st :
  (ir < length (fst st))%nat ->
  nth ir (fst (average_features_3d_is_step radii x y z c I ir st)) 0%Q
  = feature3 radii x y z c I ir (nth (ir - 1) (fst st) 0%Q).
Proof.
  intros H. unfold average_features_3d_is_step, feature3.
  destruct (out_of_border3 I x y z (nth ir radii 0)); cbn [fst];
    rewrite nth_vec_set_eq by assumption; reflexivity.
Qed.

(** The value at index [ir] after [average_features], in terms of the
    value at index [ir-1]. *)
Lemma average_features_nth radii x y c I averages ir :
  (ir < length radii)%nat -> (length radii <= length averages)%nat ->
  nth ir (fst (average_features radii x y c I averages)) 0%Q
  = feature2 radii x y c I ir
      (nth (ir - 1) (fst (average_features radii x y c I averages)) 0%Q).
Proof.
  intros Hir Hlen. unfold average_features.
  destruct (run_turn (average_features_step radii x y c I)
              (step2_length radii x y c I) (step2_other radii x y c I)
              (length radii) ir (averages, []) Hir)
    as (before & Hl & Hv & Hp).
  rewrite Hv. rewrite step2_value by (rewrite Hl; cbn [fst]; lia).
  destruct ir as [|ir].
  - unfold feature2. cbn [Nat.ltb Nat.leb]. reflexivity.
  - rewrite Hp by lia. reflexivity.
Qed.

Lemma average_features_3d_is_nth radii x y z c I averages ir :
  (ir < length radii)%nat -> (length radii <= length averages)%nat ->
  nth ir (fst (average_features_3d_is radii x y z c I averages)) 0%Q
  = feature3 radii x y z c I ir
      (nth (ir - 1)
           (fst (average_features_3d_is radii x y z c I averages)) 0%Q).
Proof.
  intros Hir Hlen. unfold average_features_3d_is.
  destruct (run_turn (average_features_3d_is_step radii x y z c I)
              (step3_length radii x y z c I) (step3_other radii x y z c I)
              (length radii) ir (averages, []) Hir)
    as (before & Hl & Hv & Hp).
  rewrite Hv. rewrite step3_value by (rewrite Hl; cbn [fst]; lia).
  destruct ir as [|ir].
  - unfold feature3. cbn [Nat.ltb Nat.leb]. reflexivity.
  - rewrite Hp by lia. reflexivity.
Qed.

(** *** Events and their effect on the output array *)

Lemma index_eqb_eq (i j : index) : index_eqb i j = true <-> i = j.
Proof.
  revert j. induction i as [|a i IH]; intros [|b j]; simpl;
    try (split; intros; congruence).
  rewrite andb_true_iff, Z.eqb_eq, IH. split.
  - intros [-> ->]. reflexivity.
  - intros H. injection H. auto.
Qed.

Lemma index_eqb_refl (i : index) : index_eqb i i = true.
Proof. now apply index_eqb_eq. Qed.

Lemma index_eqb_neq (i j : index) : i <> j -> index_eqb i j = false.
Proof.
  intros H. destruct (index_eqb i j) eqn:E; auto.
  apply index_eqb_eq in E. contradiction.
Qed.

Lemma In_zrange (n i : Z) : In i (zrange n) <-> 0 <= i < n.
Proof.
  unfold zrange. rewrite in_map_iff. split.
  - intros (k & <- & Hk). apply in_seq in Hk. lia.
  - intros H. exists (Z.to_nat i). split; [lia|]. apply in_seq. lia.
Qed.

Lemma replay_app (e1 e2 : list event) (a : marray) :
  replay (e1 ++ e2) a = replay e2 (replay e1 a).
Proof. apply fold_left_app. Qed.

Lemma replay_reads (evs : list event) (a : marray) :
  Forall is_read evs -> replay evs a = a.
Proof.
  intros H. revert a. induction H as [|e evs He _ IH]; intros a; simpl.
  - reflexivity.
  - destruct e; [apply IH | destruct He].
Qed.


(** An index that no event writes keeps its value. *)
Lemma replay_untouched (evs : list event) (a : marray) (i : index) :
  (forall v, ~ In (EvWrite i v) evs) ->
  elem (replay evs a) i = elem a i.
Proof.
  induction evs as [|e evs IH] using rev_ind; intros H; auto.
  rewrite replay_app. simpl. destruct e as [j | j v].
  - apply IH. intros v Hin. apply (H v). apply in_or_app. now left.
  - simpl. rewrite index_eqb_neq.
    + apply IH. intros w Hin. apply (H w). apply in_or_app. now left.
    + intros ->. apply (H v). apply in_or_app. right. now left.
Qed.

(** An index that is written, and only ever with [v], holds [v]. *)
Lemma replay_written (evs : list event) (a : marray) (i : index) (v : Q) :
  In (EvWrite i v) evs ->
  (forall w, In (EvWrite i w) evs -> w = v) ->
  elem (replay evs a) i = v.
Proof.
  induction evs as [|e evs IH] using rev_ind; intros Hin Hall.
  - destruct Hin.
  - rewrite replay_app. simpl. destruct e as [j | j w].
    + apply IH.
      * apply in_app_or in Hin. destruct Hin as [Hin | [Hin | []]];
          [assumption | discriminate].
      * intros w Hw. apply Hall. apply in_or_app. now left.
    + simpl. destruct (index_eqb i j) eqn:E.
      * apply index_eqb_eq in E. subst j. apply Hall.
        apply in_or_app. right. now left.
      * apply IH.
        -- apply in_app_or in Hin. destruct Hin as [Hin | [Hin | []]];
             [assumption|].
           injection Hin as -> _. now rewrite index_eqb_refl in E.
        -- intros u Hu. apply Hall. apply in_or_app. now left.
Qed.

Lemma emit_nil (m : mem) : emit [] m = m.
Proof. destruct m. unfold emit. simpl. now rewrite app_nil_r. Qed.

Lemma emit_emit (e1 e2 : list event) (m : mem) :
  emit e2 (emit e1 m) = emit (e1 ++ e2) m.
Proof.
  unfold emit. simpl. now rewrite replay_app, app_assoc.
Qed.

Lemma new_events_emit (k : mem -> mem) (m : mem) (evs : list event) :
  k m = emit evs m -> new_events k m = evs.
Proof.
  intros H. unfold new_events. rewrite H. simpl.
  rewrite skipn_app, skipn_all, Nat.sub_diag. reflexivity.
Qed.

Lemma emits_write (sz : list Z) (i : index) (v : Q) :
  emits sz (write_res i v) [EvWrite i v].
Proof. intros m _. reflexivity. Qed.

Lemma emits_log_reads (sz : list Z) (evs : list event) :
  Forall is_read evs -> emits sz (log_reads evs) evs.
Proof.
  intros H m _. unfold log_reads, emit. now rewrite replay_reads.
Qed.


Lemma emits_for_loop (sz : list Z) (n : Z) (body : Z -> mem -> mem)
    (f : Z -> list event) :
  (forall i, 0 <= i < n -> emits sz (body i) (f i)) ->
  emits sz (for_loop n body) (flat_map f (zrange n)).
Proof.
  intros H. unfold for_loop.
  assert (Hl : forall i, In i (zrange n) -> emits sz (body i) (f i)).
  { intros i Hi. apply H. now apply In_zrange. }
  clear H. induction (zrange n) as [|i l IH]; intros m Hm; simpl.
  - symmetry. apply emit_nil.
  - rewrite (Hl i (or_introl eq_refl) m Hm).
    rewrite IH.
    + apply emit_emit.
    + intros j Hj. apply Hl. now right.
    + assumption.
Qed.

Lemma emits_copy (sz : list Z) (pos : list Z) (base n : Z) (val : Z -> Q) :
  emits sz (for_loop n (fun ii => write_res (pos ++ [base + ii]) (val ii)))
        (copy_events pos base n val).
Proof.
  apply emits_for_loop. intros i _. apply emits_write.
Qed.

(** The events of [average_features] are reads. *)
Lemma corner_reads (skip : bool) (I : marray) (i : index) :
  Forall is_read (snd (corner skip I i)).
Proof.
  unfold corner. destruct skip; simpl; repeat constructor.
Qed.

Lemma average_features_reads radii x y c I averages :
  Forall is_read (snd (average_features radii x y c I averages)).
Proof.
  unfold average_features.
  assert (H : Forall is_read (snd (averages, @nil event))) by constructor.
  revert H. generalize (averages, @nil event).
  induction (seq 0 (length radii)) as [|ir l IH]; intros st H; simpl; auto.
  apply IH. unfold average_features_step.
  destruct (out_of_border2 I x y (nth ir radii 0)); cbn [snd]; auto.
  unfold corners2. cbn [snd].
  repeat (apply Forall_app; split); auto using corner_reads.
Qed.

Lemma average_features_3d_is_reads radii x y z c I averages :
  Forall is_read (snd (average_features_3d_is radii x y z c I averages)).
Proof.
  unfold average_features_3d_is.
  assert (H : Forall is_read (snd (averages, @nil event))) by constructor.
  revert H. generalize (averages, @nil event).
  induction (seq 0 (length radii)) as [|ir l IH]; intros st H; simpl; auto.
  apply IH. unfold average_features_3d_is_step.
  destruct (out_of_border3 I x y z (nth ir radii 0)); cbn [snd]; auto.
  unfold corners3. cbn [snd].
  repeat (apply Forall_app; split); auto using corner_reads.
Qed.

(** *** The events of the drivers *)

Lemma sizes_log_reads (evs : list event) (m : mem) :
  sizes (log_reads evs m) = sizes m.
Proof. reflexivity. Qed.

Lemma sizes_emit (evs : list event) (m : mem) : sizes (emit evs m) = sizes m.
Proof. reflexivity. Qed.

Lemma newf2d_reads sz I x y c : Forall is_read (snd (newf2d sz I x y c)).
Proof. apply average_features_reads. Qed.

Lemma newf3d_reads sz I x y z c :
  Forall is_read (snd (newf3d sz I x y z c)).
Proof. apply average_features_3d_is_reads. Qed.

Lemma avContext2Dmulti_emits (m : mem) :
  avContext2Dmulti m = emit (av2_events (sizes m) (predictions m)) m.
Proof.
  unfold avContext2Dmulti, av2_events.
  refine (emits_for_loop (sizes m) _ _ _ _ m eq_refl). intros c _.
  apply emits_for_loop. intros x _.
  apply emits_for_loop. intros y _.
  intros m' Hm'. cbv zeta. rewrite ?sizes_log_reads, Hm'.
  fold (newf2d (sizes m) (integralImage (predictions m)) x y c).
  rewrite (emits_log_reads (sizes m) _
             (newf2d_reads _ _ _ _ _) m' Hm').
  rewrite <- emit_emit.
  apply (emits_copy (sizes m) [x; y]). rewrite sizes_emit. exact Hm'.
Qed.

Lemma varContext2Dmulti_emits (m : mem) :
  varContext2Dmulti m = emit (var2_events (sizes m) (predictions m)) m.
Proof.
  unfold varContext2Dmulti, var2_events.
  refine (emits_for_loop (sizes m) _ _ _ _ m eq_refl). intros c _.
  apply emits_for_loop. intros x _.
  apply emits_for_loop. intros y _.
  intros m' Hm'. cbv zeta. rewrite ?sizes_log_reads, Hm'.
  fold (newf2d (sizes m) (integralImage (predictions m)) x y c).
  fold (newf2d (sizes m) (integralImage2 (predictions m)) x y c).
  set (newf := newf2d (sizes m) (integralImage (predictions m)) x y c).
  set (newf2 := newf2d (sizes m) (integralImage2 (predictions m)) x y c).
  rewrite (emits_log_reads (sizes m) (snd newf) (newf2d_reads _ _ _ _ _)
             m' Hm').
  rewrite (emits_log_reads (sizes m) (snd newf2) (newf2d_reads _ _ _ _ _)
             (emit (snd newf) m') Hm').
  rewrite emit_emit.
  change (fun ii : Z =>
            write_res [x; y; ?b + ii] (nth (Z.to_nat ii) (fst newf) 0%Q))
    with (fun ii : Z => write_res ([x; y] ++ [b + ii]) (mean_of (fst newf) ii)).
  change (fun ii : Z =>
            write_res [x; y; ?b + ii]
              (nth (Z.to_nat ii) (fst newf2) 0
               - nth (Z.to_nat ii) (fst newf) 0
                 * nth (Z.to_nat ii) (fst newf) 0)%Q)
    with (fun ii : Z =>
            write_res ([x; y] ++ [b + ii])
                      (variance_of (fst newf) (fst newf2) ii)).
  rewrite (emits_copy (sizes m) [x; y] _ _ (mean_of (fst newf))
             (emit (snd newf ++ snd newf2) m') Hm').
  rewrite emit_emit.
  rewrite (emits_copy (sizes m) [x; y] _ _
             (variance_of (fst newf) (fst newf2)) (emit _ m') Hm').
  rewrite emit_emit, <- !app_assoc. reflexivity.
Qed.

Lemma varContext3Dmulti_emits (m : mem) :
  varContext3Dmulti m = emit (var3_events (sizes m) (predictions m)) m.
Proof.
  unfold varContext3Dmulti, var3_events.
  refine (emits_for_loop (sizes m) _ _ _ _ m eq_refl). intros c _.
  apply emits_for_loop. intros x _.
  apply emits_for_loop. intros y _.
  apply emits_for_loop. intros z _.
  intros m' Hm'. cbv zeta. rewrite ?sizes_log_reads, Hm'.
  fold (newf3d (sizes m) (integralVolume (predictions m)) x y z c).
  fold (newf3d (sizes m) (integralVolume2 (predictions m)) x y z c).
  set (newf := newf3d (sizes m) (integralVolume (predictions m)) x y z c).
  set (newf2 := newf3d (sizes m) (integralVolume2 (predictions m)) x y z c).
  rewrite (emits_log_reads (sizes m) (snd newf) (newf3d_reads _ _ _ _ _ _)
             m' Hm').
  rewrite (emits_log_reads (sizes m) (snd newf2) (newf3d_reads _ _ _ _ _ _)
             (emit (snd newf) m') Hm').
  rewrite emit_emit.
  change (fun ii : Z =>
            write_res [x; y; z; ?b + ii] (nth (Z.to_nat ii) (fst newf) 0%Q))
    with (fun ii : Z =>
            write_res ([x; y; z] ++ [b + ii]) (mean_of (fst newf) ii)).
  change (fun ii : Z =>
            write_res [x; y; z; ?b + ii]
              (nth (Z.to_nat ii) (fst newf2) 0
               - nth (Z.to_nat ii) (fst newf) 0
                 * nth (Z.to_nat ii) (fst newf) 0)%Q)
    with (fun ii : Z =>
            write_res ([x; y; z] ++ [b + ii])
                      (variance_of (fst newf) (fst newf2) ii)).
  rewrite (emits_copy (sizes m) [x; y; z] _ _ (mean_of (fst newf))
             (emit (snd newf ++ snd newf2) m') Hm').
  rewrite emit_emit.
  rewrite (emits_copy (sizes m) [x; y; z] _ _
             (variance_of (fst newf) (fst newf2)) (emit _ m') Hm').
  rewrite emit_emit, <- !app_assoc. reflexivity.
Qed.

(** ** Box sums *)

(** C2: when the integral array is the exact prefix sum of a field [F],
    then for every channel, every radius [r >= 0] and every centre whose
    box lies inside the array, the inclusion-exclusion expression built
    from the four (2D) or eight (3D) corner lookups, a corner being taken
    as 0 exactly when one of its coordinates equals the radius, is the
    brute-force sum of [F] over the closed box. *)
Theorem corner_sum_is_box_sum :
  (forall (F I : marray) (x y c r : Z),
      is_integral2 F I -> 0 <= r -> 0 <= c < dim F 2 ->
      out_of_border2 I x y r = false ->
      fst (corners2 I x y c r) == box_sum2 F x y c r)
  /\
  (forall (F I : marray) (x y z c r : Z),
      is_integral3 F I -> 0 <= r -> 0 <= c < dim F 3 ->
      out_of_border3 I x y z r = false ->
      fst (corners3 I x y z c r) == box_sum3 F x y z c r).
Proof.
  split.
  - intros. now apply corners2_box_sum.
  - intros. now apply corners3_box_sum.
Qed.

Lemma corner_sum_is_box_sum_witness :
  fst (corners2 (integralImage center_field) 2 2 0 1)
  == box_sum2 center_field 2 2 0 1
  /\ fst (corners3 (integralVolume ramp_volume) 1 1 1 0 1)
     == box_sum3 ramp_volume 1 1 1 0 1.
Proof.
  split.
  - apply (proj1 corner_sum_is_box_sum).
    + apply integralImage_is_integral2.
    + lia.
    + vm_compute. split; discriminate || reflexivity.
    + reflexivity.
  - apply (proj2 corner_sum_is_box_sum).
    + apply integralVolume_is_integral3.
    + lia.
    + vm_compute. split; discriminate || reflexivity.
    + reflexivity.
Defined.

(** ** Divisors *)

Lemma inject_Z_nonzero (z : Z) : z <> 0 -> ~ inject_Z z == 0.
Proof. unfold Qeq, inject_Z. simpl. lia. Qed.

Lemma count_gap_positive (r rp : Z) :
  0 <= rp < r -> 0 < count3 r - count3 rp /\ 0 < count2 r - count2 rp.
Proof.
  intros H. unfold count3, count2.
  set (a := 2 * r + 1). set (b := 2 * rp + 1).
  assert (Hb : 0 < b) by (unfold b; lia).
  assert (Hab : b < a) by (unfold a, b; lia).
  assert (b * b < a * a) by nia.
  assert (b * b * b < a * a * b) by nia.
  assert (a * a * b < a * a * a) by nia.
  lia.
Qed.



(** ** The subtraction of the previous box *)



(** C1, at radii [0; 1; 2] on [center_field], centre (2, 2): all three
    boxes are in border, the value at index 2 times the annulus count 16
    plus the sum over the radius-1 box is 2, while the sum over the
    radius-2 box is 1.  The turn for index 2 subtracts the annulus mean of
    index 1 times the full count 9 instead of the radius-1 box sum. *)
Theorem annulus_decomposition_third_radius :
  out_of_border2 (integralImage center_field) 2 2 2 = false
  /\ nth 2 (fst (average_features [0; 1; 2] 2 2 0
                   (integralImage center_field) (new_vector 3))) 0%Q
     * inject_Z (count2 2 - count2 1)
     + box_sum2 center_field 2 2 0 1 == 2
  /\ box_sum2 center_field 2 2 0 2 == 1
  /\ ~ nth 2 (fst (average_features [0; 1; 2] 2 2 0
                     (integralImage center_field) (new_vector 3))) 0%Q
       * inject_Z (count2 2 - count2 1)
       + box_sum2 center_field 2 2 0 1
       == box_sum2 center_field 2 2 0 2.
Proof.
  split; [reflexivity|]. repeat split; try (vm_compute; reflexivity).
  vm_compute. discriminate.
Qed.

(** ** What the drivers write *)

Lemma In_copy_events pos base n val idx v :
  In (EvWrite idx v) (copy_events pos base n val) <->
  exists i, 0 <= i < n /\ idx = pos ++ [base + i] /\ v = val i.
Proof.
  unfold copy_events. rewrite in_flat_map. split.
  - intros (i & Hi & [H | []]). apply In_zrange in Hi.
    injection H as <- <-. eauto.
  - intros (i & Hi & -> & ->). exists i. split.
    + now apply In_zrange.
    + now left.
Qed.

Lemma reads_no_write (evs : list event) (i : index) (v : Q) :
  Forall is_read evs -> ~ In (EvWrite i v) evs.
Proof.
  intros H Hin. rewrite Forall_forall in H. exact (H _ Hin).
Qed.

Lemma channel_unique (n c i c' i' : Z) :
  0 <= i < n -> 0 <= i' < n -> c * n + i = c' * n + i' -> c = c' /\ i = i'.
Proof.
  intros Hi Hi' H.
  assert (c = c') by nia. subst c'. split; [reflexivity | lia].
Qed.

Lemma new_vector_length (n : nat) : length (new_vector (Z.of_nat n)) = n.
Proof. unfold new_vector. now rewrite repeat_length, Nat2Z.id. Qed.

Lemma newf2d_nth sz I x y c i :
  (i < length sz)%nat ->
  nth i (fst (newf2d sz I x y c)) 0%Q
  = feature2 sz x y c I i (nth (i - 1) (fst (newf2d sz I x y c)) 0%Q).
Proof.
  intros H. unfold newf2d. apply average_features_nth; auto.
  now rewrite new_vector_length.
Qed.

Lemma newf3d_nth sz I x y z c i :
  (i < length sz)%nat ->
  nth i (fst (newf3d sz I x y z c)) 0%Q
  = feature3 sz x y z c I i (nth (i - 1) (fst (newf3d sz I x y z c)) 0%Q).
Proof.
  intros H. unfold newf3d. apply average_features_3d_is_nth; auto.
  now rewrite new_vector_length.
Qed.

(** The writes of [avContext2Dmulti]. *)
Lemma av2_write sz p idx v :
  In (EvWrite idx v) (av2_events sz p) <->
  exists c x y i,
    0 <= c < dim p 2 /\ 0 <= x < dim p 0 /\ 0 <= y < dim p 1
    /\ 0 <= i < Z.of_nat (length sz)
    /\ idx = [x; y; c * Z.of_nat (length sz) + i]
    /\ v = mean_of (fst (newf2d sz (integralImage p) x y c)) i.
Proof.
  unfold av2_events. split.
  - intros H.
    apply in_flat_map in H. destruct H as (c & Hc & H).
    apply in_flat_map in H. destruct H as (x & Hx & H).
    apply in_flat_map in H. destruct H as (y & Hy & H).
    apply In_zrange in Hc, Hx, Hy.
    apply in_app_or in H. destruct H as [H | H].
    + exfalso. revert H. apply reads_no_write, newf2d_reads.
    + apply In_copy_events in H. destruct H as (i & Hi & -> & ->).
      exists c, x, y, i. auto 10.
  - intros (c & x & y & i & Hc & Hx & Hy & Hi & -> & ->).
    apply in_flat_map. exists c. split; [now apply In_zrange|].
    apply in_flat_map. exists x. split; [now apply In_zrange|].
    apply in_flat_map. exists y. split; [now apply In_zrange|].
    apply in_or_app. right. apply In_copy_events. exists i. auto.
Qed.

(** The writes of [varContext2Dmulti]. *)
Lemma var2_write sz p idx v :
  In (EvWrite idx v) (var2_events sz p) <->
  exists c x y i,
    0 <= c < dim p 2 /\ 0 <= x < dim p 0 /\ 0 <= y < dim p 1
    /\ 0 <= i < Z.of_nat (length sz)
    /\ ((idx = [x; y; c * 2 * Z.of_nat (length sz) + i]
         /\ v = mean_of (fst (newf2d sz (integralImage p) x y c)) i)
        \/ (idx = [x; y; c * 2 * Z.of_nat (length sz)
                         + Z.of_nat (length sz) + i]
            /\ v = variance_of (fst (newf2d sz (integralImage p) x y c))
                               (fst (newf2d sz (integralImage2 p) x y c)) i)).
Proof.
  unfold var2_events. split.
  - intros H.
    apply in_flat_map in H. destruct H as (c & Hc & H).
    apply in_flat_map in H. destruct H as (x & Hx & H).
    apply in_flat_map in H. destruct H as (y & Hy & H).
    apply In_zrange in Hc, Hx, Hy.
    apply in_app_or in H. destruct H as [H | H].
    { exfalso. revert H. apply reads_no_write, newf2d_reads. }
    apply in_app_or in H. destruct H as [H | H].
    { exfalso. revert H. apply reads_no_write, newf2d_reads. }
    apply in_app_or in H. destruct H as [H | H];
      apply In_copy_events in H; destruct H as (i & Hi & -> & ->);
      exists c, x, y, i; auto 10.
  - intros (c & x & y & i & Hc & Hx & Hy & Hi & H).
    apply in_flat_map. exists c. split; [now apply In_zrange|].
    apply in_flat_map. exists x. split; [now apply In_zrange|].
    apply in_flat_map. exists y. split; [now apply In_zrange|].
    apply in_or_app. right. apply in_or_app. right. apply in_or_app.
    destruct H as [[-> ->] | [-> ->]]; [left | right];
      apply In_copy_events; exists i; auto.
Qed.

(** The writes of [varContext3Dmulti]. *)
Lemma var3_write sz p idx v :
  In (EvWrite idx v) (var3_events sz p) <->
  exists c x y z i,
    0 <= c < dim p 3 /\ 0 <= x < dim p 0 /\ 0 <= y < dim p 1
    /\ 0 <= z < dim p 2 /\ 0 <= i < Z.of_nat (length sz)
    /\ ((idx = [x; y; z; c * 2 * Z.of_nat (length sz) + i]
         /\ v = mean_of (fst (newf3d sz (integralVolume p) x y z c)) i)
        \/ (idx = [x; y; z; c * 2 * Z.of_nat (length sz)
                            + Z.of_nat (length sz) + i]
            /\ v = variance_of
                     (fst (newf3d sz (integralVolume p) x y z c))
                     (fst (newf3d sz (integralVolume2 p) x y z c)) i)).
Proof.
  unfold var3_events. split.
  - intros H.
    apply in_flat_map in H. destruct H as (c & Hc & H).
    apply in_flat_map in H. destruct H as (x & Hx & H).
    apply in_flat_map in H. destruct H as (y & Hy & H).
    apply in_flat_map in H. destruct H as (z & Hz & H).
    apply In_zrange in Hc, Hx, Hy, Hz.
    apply in_app_or in H. destruct H as [H | H].
    { exfalso. revert H. apply reads_no_write, newf3d_reads. }
    apply in_app_or in H. destruct H as [H | H].
    { exfalso. revert H. apply reads_no_write, newf3d_reads. }
    apply in_app_or in H. destruct H as [H | H];
      apply In_copy_events in H; destruct H as (i & Hi & -> & ->);
      exists c, x, y, z, i; auto 10.
  - intros (c & x & y & z & i & Hc & Hx & Hy & Hz & Hi & H).
    apply in_flat_map. exists c. split; [now apply In_zrange|].
    apply in_flat_map. exists x. split; [now apply In_zrange|].
    apply in_flat_map. exists y. split; [now apply In_zrange|].
    apply in_flat_map. exists z. split; [now apply In_zrange|].
    apply in_or_app. right. apply in_or_app. right. apply in_or_app.
    destruct H as [[-> ->] | [-> ->]]; [left | right];
      apply In_copy_events; exists i; auto.
Qed.

(** *** The output array after a driver call *)

Lemma av2_res (m : mem) (c x y i : Z) :
  0 <= c < dim (predictions m) 2 -> 0 <= x < dim (predictions m) 0 ->
  0 <= y < dim (predictions m) 1 -> 0 <= i < Z.of_nat (length (sizes m)) ->
  elem (res (avContext2Dmulti m)) [x; y; c * Z.of_nat (length (sizes m)) + i]
  = mean_of (fst (newf2d (sizes m) (integralImage (predictions m)) x y c)) i.
Proof.
  intros Hc Hx Hy Hi. rewrite avContext2Dmulti_emits. cbn [res emit].
  apply replay_written.
  - apply av2_write. exists c, x, y, i. auto 10.
  - intros w Hw. apply av2_write in Hw.
    destruct Hw as (c' & x' & y' & i' & _ & _ & _ & Hi' & E & ->).
    injection E as -> -> E.
    apply channel_unique in E; try assumption.
    destruct E as [-> ->]. reflexivity.
Qed.

Lemma var2_res_mean (m : mem) (c x y i : Z) :
  0 <= c < dim (predictions m) 2 -> 0 <= x < dim (predictions m) 0 ->
  0 <= y < dim (predictions m) 1 -> 0 <= i < Z.of_nat (length (sizes m)) ->
  elem (res (varContext2Dmulti m))
       [x; y; c * 2 * Z.of_nat (length (sizes m)) + i]
  = mean_of (fst (newf2d (sizes m) (integralImage (predictions m)) x y c)) i.
Proof.
  intros Hc Hx Hy Hi. rewrite varContext2Dmulti_emits. cbn [res emit].
  set (n := Z.of_nat (length (sizes m))) in *.
  apply replay_written.
  - apply var2_write. exists c, x, y, i. auto 10.
  - intros w Hw. apply var2_write in Hw. fold n in Hw.
    destruct Hw as (c' & x' & y' & i' & _ & _ & _ & Hi' & [[E ->] | [E ->]]);
      injection E as -> -> E.
    + assert (E' : c * (2 * n) + i = c' * (2 * n) + i') by lia.
      apply channel_unique in E'; try lia.
      destruct E' as [-> ->]. reflexivity.
    + assert (E' : c * (2 * n) + i = c' * (2 * n) + (n + i')) by lia.
      apply channel_unique in E'; lia.
Qed.

Lemma var2_res_variance (m : mem) (c x y i : Z) :
  0 <= c < dim (predictions m) 2 -> 0 <= x < dim (predictions m) 0 ->
  0 <= y < dim (predictions m) 1 -> 0 <= i < Z.of_nat (length (sizes m)) ->
  elem (res (varContext2Dmulti m))
       [x; y; c * 2 * Z.of_nat (length (sizes m))
              + Z.of_nat (length (sizes m)) + i]
  = variance_of
      (fst (newf2d (sizes m) (integralImage (predictions m)) x y c))
      (fst (newf2d (sizes m) (integralImage2 (predictions m)) x y c)) i.
Proof.
  intros Hc Hx Hy Hi. rewrite varContext2Dmulti_emits. cbn [res emit].
  set (n := Z.of_nat (length (sizes m))) in *.
  apply replay_written.
  - apply var2_write. exists c, x, y, i. auto 10.
  - intros w Hw. apply var2_write in Hw. fold n in Hw.
    destruct Hw as (c' & x' & y' & i' & _ & _ & _ & Hi' & [[E ->] | [E ->]]);
      injection E as -> -> E.
    + assert (E' : c * (2 * n) + (n + i) = c' * (2 * n) + i') by lia.
      apply channel_unique in E'; lia.
    + assert (E' : c * (2 * n) + (n + i) = c' * (2 * n) + (n + i')) by lia.
      apply channel_unique in E'; try lia.
      destruct E' as [-> E']. assert (i' = i) by lia. subst i'.
      reflexivity.
Qed.

Lemma var3_res_mean (m : mem) (c x y z i : Z) :
  0 <= c < dim (predictions m) 3 -> 0 <= x < dim (predictions m) 0 ->
  0 <= y < dim (predictions m) 1 -> 0 <= z < dim (predictions m) 2 ->
  0 <= i < Z.of_nat (length (sizes m)) ->
  elem (res (varContext3Dmulti m))
       [x; y; z; c * 2 * Z.of_nat (length (sizes m)) + i]
  = mean_of
      (fst (newf3d (sizes m) (integralVolume (predictions m)) x y z c)) i.
Proof.
  intros Hc Hx Hy Hz Hi. rewrite varContext3Dmulti_emits. cbn [res emit].
  set (n := Z.of_nat (length (sizes m))) in *.
  apply replay_written.
  - apply var3_write. exists c, x, y, z, i. auto 10.
  - intros w Hw. apply var3_write in Hw. fold n in Hw.
    destruct Hw
      as (c' & x' & y' & z' & i' & _ & _ & _ & _ & Hi' & [[E ->] | [E ->]]);
      injection E as -> -> -> E.
    + assert (E' : c * (2 * n) + i = c' * (2 * n) + i') by lia.
      apply channel_unique in E'; try lia.
      destruct E' as [-> ->]. reflexivity.
    + assert (E' : c * (2 * n) + i = c' * (2 * n) + (n + i')) by lia.
      apply channel_unique in E'; lia.
Qed.

Lemma var3_res_variance (m : mem) (c x y z i : Z) :
  0 <= c < dim (predictions m) 3 -> 0 <= x < dim (predictions m) 0 ->
  0 <= y < dim (predictions m) 1 -> 0 <= z < dim (predictions m) 2 ->
  0 <= i < Z.of_nat (length (sizes m)) ->
  elem (res (varContext3Dmulti m))
       [x; y; z; c * 2 * Z.of_nat (length (sizes m))
                 + Z.of_nat (length (sizes m)) + i]
  = variance_of
      (fst (newf3d (sizes m) (integralVolume (predictions m)) x y z c))
      (fst (newf3d (sizes m) (integralVolume2 (predictions m)) x y z c)) i.
Proof.
  intros Hc Hx Hy Hz Hi. rewrite varContext3Dmulti_emits. cbn [res emit].
  set (n := Z.of_nat (length (sizes m))) in *.
  apply replay_written.
  - apply var3_write. exists c, x, y, z, i. auto 10.
  - intros w Hw. apply var3_write in Hw. fold n in Hw.
    destruct Hw
      as (c' & x' & y' & z' & i' & _ & _ & _ & _ & Hi' & [[E ->] | [E ->]]);
      injection E as -> -> -> E.
    + assert (E' : c * (2 * n) + (n + i) = c' * (2 * n) + i') by lia.
      apply channel_unique in E'; lia.
    + assert (E' : c * (2 * n) + (n + i) = c' * (2 * n) + (n + i')) by lia.
      apply channel_unique in E'; try lia.
      destruct E' as [-> E']. assert (i' = i) by lia. subst i'.
      reflexivity.
Qed.

(** ** Layout of the output channels *)

Lemma emit_untouched (k : mem -> mem) (m : mem) (evs : list event)
    (idx : index) :
  k m = emit evs m -> (forall v, ~ In (EvWrite idx v) evs) ->
  elem (res (k m)) idx = elem (res m) idx.
Proof.
  intros H Hno. rewrite H. cbn [res emit]. now apply replay_untouched.
Qed.

(** C8: [avContext2Dmulti] writes, for every channel [c], position and
    radius index [i], the mean at output channel [c*n_radii + i];
    [varContext2Dmulti] and [varContext3Dmulti] write the mean at
    [c*2*n_radii + i] and the variance at [c*2*n_radii + n_radii + i];
    no other element of the output is written.  For each driver: the
    writes recorded are exactly those, the output holds the values at
    those indices, and every other element of the output is as before. *)
Theorem output_layout (m : mem) :
  let n := Z.of_nat (length (sizes m)) in
  let p := predictions m in
  let mean2 x y c := mean_of (fst (newf2d (sizes m) (integralImage p) x y c)) in
  let var2 x y c :=
    variance_of (fst (newf2d (sizes m) (integralImage p) x y c))
                (fst (newf2d (sizes m) (integralImage2 p) x y c)) in
  let mean3 x y z c :=
    mean_of (fst (newf3d (sizes m) (integralVolume p) x y z c)) in
  let var3 x y z c :=
    variance_of (fst (newf3d (sizes m) (integralVolume p) x y z c))
                (fst (newf3d (sizes m) (integralVolume2 p) x y z c)) in
  ((forall idx v,
       In (EvWrite idx v) (new_events avContext2Dmulti m) <->
       exists c x y i,
         0 <= c < dim p 2 /\ 0 <= x < dim p 0 /\ 0 <= y < dim p 1
         /\ 0 <= i < n /\ idx = [x; y; c * n + i] /\ v = mean2 x y c i)
   /\ (forall c x y i,
          0 <= c < dim p 2 -> 0 <= x < dim p 0 -> 0 <= y < dim p 1 ->
          0 <= i < n ->
          elem (res (avContext2Dmulti m)) [x; y; c * n + i] = mean2 x y c i)
   /\ (forall idx,
          (forall c x y i,
              0 <= c < dim p 2 -> 0 <= x < dim p 0 -> 0 <= y < dim p 1 ->
              0 <= i < n -> idx <> [x; y; c * n + i]) ->
          elem (res (avContext2Dmulti m)) idx = elem (res m) idx))
  /\
  ((forall idx v,
       In (EvWrite idx v) (new_events varContext2Dmulti m) <->
       exists c x y i,
         0 <= c < dim p 2 /\ 0 <= x < dim p 0 /\ 0 <= y < dim p 1
         /\ 0 <= i < n
         /\ ((idx = [x; y; c * 2 * n + i] /\ v = mean2 x y c i)
             \/ (idx = [x; y; c * 2 * n + n + i] /\ v = var2 x y c i)))
   /\ (forall c x y i,
          0 <= c < dim p 2 -> 0 <= x < dim p 0 -> 0 <= y < dim p 1 ->
          0 <= i < n ->
          elem (res (varContext2Dmulti m)) [x; y; c * 2 * n + i]
          = mean2 x y c i
          /\ elem (res (varContext2Dmulti m)) [x; y; c * 2 * n + n + i]
             = var2 x y c i)
   /\ (forall idx,
          (forall c x y i,
              0 <= c < dim p 2 -> 0 <= x < dim p 0 -> 0 <= y < dim p 1 ->
              0 <= i < n ->
              idx <> [x; y; c * 2 * n + i]
              /\ idx <> [x; y; c * 2 * n + n + i]) ->
          elem (res (varContext2Dmulti m)) idx = elem (res m) idx))
  /\
  ((forall idx v,
       In (EvWrite idx v) (new_events varContext3Dmulti m) <->
       exists c x y z i,
         0 <= c < dim p 3 /\ 0 <= x < dim p 0 /\ 0 <= y < dim p 1
         /\ 0 <= z < dim p 2 /\ 0 <= i < n
         /\ ((idx = [x; y; z; c * 2 * n + i] /\ v = mean3 x y z c i)
             \/ (idx = [x; y; z; c * 2 * n + n + i]
                 /\ v = var3 x y z c i)))
   /\ (forall c x y z i,
          0 <= c < dim p 3 -> 0 <= x < dim p 0 -> 0 <= y < dim p 1 ->
          0 <= z < dim p 2 -> 0 <= i < n ->
          elem (res (varContext3Dmulti m)) [x; y; z; c * 2 * n + i]
          = mean3 x y z c i
          /\ elem (res (varContext3Dmulti m)) [x; y; z; c * 2 * n + n + i]
             = var3 x y z c i)
   /\ (forall idx,
          (forall c x y z i,
              0 <= c < dim p 3 -> 0 <= x < dim p 0 -> 0 <= y < dim p 1 ->
              0 <= z < dim p 2 -> 0 <= i < n ->
              idx <> [x; y; z; c * 2 * n + i]
              /\ idx <> [x; y; z; c * 2 * n + n + i]) ->
          elem (res (varContext3Dmulti m)) idx = elem (res m) idx)).
Proof.
  cbv zeta. split; [|split]; (split; [|split]).
  - intros idx v.
    rewrite (new_events_emit _ _ _ (avContext2Dmulti_emits m)).
    apply av2_write.
  - intros. now apply av2_res.
  - intros idx Hno.
    apply (emit_untouched _ _ _ _ (avContext2Dmulti_emits m)).
    intros v Hin. apply av2_write in Hin.
    destruct Hin as (c & x & y & i & Hc & Hx & Hy & Hi & E & _).
    exact (Hno c x y i Hc Hx Hy Hi E).
  - intros idx v.
    rewrite (new_events_emit _ _ _ (varContext2Dmulti_emits m)).
    apply var2_write.
  - intros. split; [now apply var2_res_mean | now apply var2_res_variance].
  - intros idx Hno.
    apply (emit_untouched _ _ _ _ (varContext2Dmulti_emits m)).
    intros v Hin. apply var2_write in Hin.
    destruct Hin as (c & x & y & i & Hc & Hx & Hy & Hi & [[E _] | [E _]]);
      destruct (Hno c x y i Hc Hx Hy Hi); contradiction.
  - intros idx v.
    rewrite (new_events_emit _ _ _ (varContext3Dmulti_emits m)).
    apply var3_write.
  - intros. split; [now apply var3_res_mean | now apply var3_res_variance].
  - intros idx Hno.
    apply (emit_untouched _ _ _ _ (varContext3Dmulti_emits m)).
    intros v Hin. apply var3_write in Hin.
    destruct Hin
      as (c & x & y & z & i & Hc & Hx & Hy & Hz & Hi & [[E _] | [E _]]);
      destruct (Hno c x y z i Hc Hx Hy Hz Hi); contradiction.
Qed.

Lemma output_layout_witness :
  elem (res (avContext2Dmulti center_call)) [2; 2; 0 * 2 + 1]
  = mean_of (fst (newf2d [0; 1] (integralImage center_field) 2 2 0)) 1
  /\ (elem (res (varContext2Dmulti center_call)) [2; 2; 0 * 2 * 2 + 1]
      = mean_of (fst (newf2d [0; 1] (integralImage center_field) 2 2 0)) 1
      /\ elem (res (varContext2Dmulti center_call)) [2; 2; 0 * 2 * 2 + 2 + 1]
         = variance_of
             (fst (newf2d [0; 1] (integralImage center_field) 2 2 0))
             (fst (newf2d [0; 1] (integralImage2 center_field) 2 2 0)) 1)
  /\ (elem (res (varContext3Dmulti volume_call)) [1; 1; 1; 0 * 2 * 2 + 1]
      = mean_of (fst (newf3d [0; 1] (integralVolume ramp_volume) 1 1 1 0)) 1
      /\ elem (res (varContext3Dmulti volume_call))
              [1; 1; 1; 0 * 2 * 2 + 2 + 1]
         = variance_of
             (fst (newf3d [0; 1] (integralVolume ramp_volume) 1 1 1 0))
             (fst (newf3d [0; 1] (integralVolume2 ramp_volume) 1 1 1 0)) 1).
Proof.
  split; [|split].
  - apply (proj1 (proj2 (proj1 (output_layout center_call))) 0 2 2 1);
      cbn; lia.
  - apply (proj1 (proj2 (proj1 (proj2 (output_layout center_call))))
             0 2 2 1); cbn; lia.
  - apply (proj1 (proj2 (proj2 (proj2 (output_layout volume_call))))
             0 1 1 1 1); cbn; lia.
Defined.

(** ** Frame *)

(** C9: a driver call leaves the [sizes] array and the [predictions] array
    as they were; the output array is the only one that is written. *)
Theorem drivers_preserve_inputs (m : mem) :
  (sizes (avContext2Dmulti m) = sizes m
   /\ predictions (avContext2Dmulti m) = predictions m)
  /\ (sizes (varContext2Dmulti m) = sizes m
      /\ predictions (varContext2Dmulti m) = predictions m)
  /\ (sizes (varContext3Dmulti m) = sizes m
      /\ predictions (varContext3Dmulti m) = predictions m).
Proof.
  rewrite avContext2Dmulti_emits, varContext2Dmulti_emits,
    varContext3Dmulti_emits.
  repeat split.
Qed.

Lemma flat_map_nil {A B : Type} (f : A -> list B) (l : list A) :
  (forall a, In a l -> f a = []) -> flat_map f l = [].
Proof.
  induction l as [|a l IH]; intros H; simpl; auto.
  rewrite (H a) by now left. apply IH. intros b Hb. apply H. now right.
Qed.

(** C10: with an empty radius list every driver call returns, reads no
    corner of an integral array and writes no element of the output: the
    memory and the recorded events are as before the call. *)
Theorem empty_radius_list (m : mem) :
  sizes m = [] ->
  (avContext2Dmulti m = m /\ new_events avContext2Dmulti m = [])
  /\ (varContext2Dmulti m = m /\ new_events varContext2Dmulti m = [])
  /\ (varContext3Dmulti m = m /\ new_events varContext3Dmulti m = []).
Proof.
  intros Hs.
  assert (E1 : av2_events (sizes m) (predictions m) = []).
  { rewrite Hs. unfold av2_events.
    do 3 (apply flat_map_nil; intros ? _). reflexivity. }
  assert (E2 : var2_events (sizes m) (predictions m) = []).
  { rewrite Hs. unfold var2_events.
    do 3 (apply flat_map_nil; intros ? _). reflexivity. }
  assert (E3 : var3_events (sizes m) (predictions m) = []).
  { rewrite Hs. unfold var3_events.
    do 4 (apply flat_map_nil; intros ? _). reflexivity. }
  pose proof (avContext2Dmulti_emits m) as H1.
  pose proof (varContext2Dmulti_emits m) as H2.
  pose proof (varContext3Dmulti_emits m) as H3.
  rewrite (new_events_emit _ _ _ H1), (new_events_emit _ _ _ H2),
    (new_events_emit _ _ _ H3).
  rewrite E1 in *. rewrite E2 in *. rewrite E3 in *.
  rewrite emit_nil in H1, H2, H3. auto.
Qed.

Lemma empty_radius_list_witness :
  (avContext2Dmulti empty_call = empty_call
   /\ new_events avContext2Dmulti empty_call = [])
  /\ (varContext2Dmulti empty_call = empty_call
      /\ new_events varContext2Dmulti empty_call = [])
  /\ (varContext3Dmulti empty_call = empty_call
      /\ new_events varContext3Dmulti empty_call = []).
Proof.
  apply (empty_radius_list empty_call). reflexivity.
Defined.

(** ** Border placeholder *)

Lemma feature2_border radii x y c I ir prev :
  out_of_border2 I x y (nth ir radii 0) = true ->
  feature2 radii x y c I ir prev = (1 / inject_Z (dim I 2))%Q.
Proof. intros H. unfold feature2. now rewrite H. Qed.

Lemma feature3_border radii x y z c I ir prev :
  out_of_border3 I x y z (nth ir radii 0) = true ->
  feature3 radii x y z c I ir prev = (1 / inject_Z (dim I 3))%Q.
Proof. intros H. unfold feature3. now rewrite H. Qed.

Lemma mean_of_border2 sz (p I : marray) x y c i :
  shape I = shape p ->
  0 <= i < Z.of_nat (length sz) ->
  out_of_border2 p x y (nth (Z.to_nat i) sz 0) = true ->
  mean_of (fst (newf2d sz I x y c)) i = (1 / inject_Z (dim p 2))%Q.
Proof.
  intros Hs Hi Hb. unfold mean_of. rewrite newf2d_nth by lia.
  rewrite feature2_border.
  - unfold dim. now rewrite Hs.
  - revert Hb. unfold out_of_border2, dim. now rewrite Hs.
Qed.

Lemma mean_of_border3 sz (p I : marray) x y z c i :
  shape I = shape p ->
  0 <= i < Z.of_nat (length sz) ->
  out_of_border3 p x y z (nth (Z.to_nat i) sz 0) = true ->
  mean_of (fst (newf3d sz I x y z c)) i = (1 / inject_Z (dim p 3))%Q.
Proof.
  intros Hs Hi Hb. unfold mean_of. rewrite newf3d_nth by lia.
  rewrite feature3_border.
  - unfold dim. now rewrite Hs.
  - revert Hb. unfold out_of_border3, dim. now rewrite Hs.
Qed.

(** C3, as the code has it: where the box of a radius leaves the array,
    the turn of the loop stores [1/nclasses] and reads no corner of the
    integral array; the mean written by each driver is [1/nclasses], and
    the variance written by [varContext2Dmulti] and [varContext3Dmulti]
    is [1/nclasses - (1/nclasses)^2]. *)
Theorem border_placeholder :
  (forall radii x y c I ir st,
      out_of_border2 I x y (nth ir radii 0) = true ->
      average_features_step radii x y c I ir st
      = (vec_set (fst st) ir (1 / inject_Z (dim I 2))%Q, snd st))
  /\
  (forall radii x y z c I ir st,
      out_of_border3 I x y z (nth ir radii 0) = true ->
      average_features_3d_is_step radii x y z c I ir st
      = (vec_set (fst st) ir (1 / inject_Z (dim I 3))%Q, snd st))
  /\
  (forall (m : mem) (c x y i : Z),
      let n := Z.of_nat (length (sizes m)) in
      let p := predictions m in
      0 <= c < dim p 2 -> 0 <= x < dim p 0 -> 0 <= y < dim p 1 ->
      0 <= i < n ->
      out_of_border2 p x y (nth (Z.to_nat i) (sizes m) 0) = true ->
      elem (res (avContext2Dmulti m)) [x; y; c * n + i]
      == 1 / inject_Z (dim p 2)
      /\ elem (res (varContext2Dmulti m)) [x; y; c * 2 * n + i]
         == 1 / inject_Z (dim p 2)
      /\ elem (res (varContext2Dmulti m)) [x; y; c * 2 * n + n + i]
         == 1 / inject_Z (dim p 2)
            - (1 / inject_Z (dim p 2)) * (1 / inject_Z (dim p 2)))
  /\
  (forall (m : mem) (c x y z i : Z),
      let n := Z.of_nat (length (sizes m)) in
      let p := predictions m in
      0 <= c < dim p 3 -> 0 <= x < dim p 0 -> 0 <= y < dim p 1 ->
      0 <= z < dim p 2 -> 0 <= i < n ->
      out_of_border3 p x y z (nth (Z.to_nat i) (sizes m) 0) = true ->
      elem (res (varContext3Dmulti m)) [x; y; z; c * 2 * n + i]
      == 1 / inject_Z (dim p 3)
      /\ elem (res (varContext3Dmulti m)) [x; y; z; c * 2 * n + n + i]
         == 1 / inject_Z (dim p 3)
            - (1 / inject_Z (dim p 3)) * (1 / inject_Z (dim p 3))).
Proof.
  split; [|split; [|split]].
  - intros radii x y c I ir st H. unfold average_features_step.
    now rewrite H.
  - intros radii x y z c I ir st H. unfold average_features_3d_is_step.
    now rewrite H.
  - intros m c x y i n p Hc Hx Hy Hi Hb. subst n p.
    rewrite av2_res, var2_res_mean, var2_res_variance by assumption.
    unfold variance_of. fold (mean_of
      (fst (newf2d (sizes m) (integralImage2 (predictions m)) x y c)) i).
    fold (mean_of
      (fst (newf2d (sizes m) (integralImage (predictions m)) x y c)) i).
    rewrite !(mean_of_border2 (sizes m) (predictions m)) by
      (reflexivity || assumption).
    repeat split; reflexivity.
  - intros m c x y z i n p Hc Hx Hy Hz Hi Hb. subst n p.
    rewrite var3_res_mean, var3_res_variance by assumption.
    unfold variance_of. fold (mean_of
      (fst (newf3d (sizes m) (integralVolume2 (predictions m)) x y z c)) i).
    fold (mean_of
      (fst (newf3d (sizes m) (integralVolume (predictions m)) x y z c)) i).
    rewrite !(mean_of_border3 (sizes m) (predictions m)) by
      (reflexivity || assumption).
    repeat split; reflexivity.
Qed.

Lemma border_placeholder_witness :
  (elem (res (avContext2Dmulti border_call)) [0; 0; 0 * 1 + 0] == 1 / 2
   /\ elem (res (varContext2Dmulti border_call)) [0; 0; 0 * 2 * 1 + 0]
      == 1 / 2
   /\ elem (res (varContext2Dmulti border_call)) [0; 0; 0 * 2 * 1 + 1 + 0]
      == 1 / 2 - (1 / 2) * (1 / 2))
  /\ (elem (res (varContext3Dmulti volume_call)) [0; 0; 0; 0 * 2 * 2 + 1]
      == 1 / 1
      /\ elem (res (varContext3Dmulti volume_call))
              [0; 0; 0; 0 * 2 * 2 + 2 + 1]
         == 1 / 1 - (1 / 1) * (1 / 1)).
Proof.
  split.
  - apply (proj1 (proj2 (proj2 border_placeholder)) border_call 0 0 0 0);
      cbn; try lia; reflexivity.
  - apply (proj2 (proj2 (proj2 border_placeholder)) volume_call 0 0 0 0 1);
      cbn; try lia; reflexivity.
Defined.

(** C3 as stated fails for the variance: on a 2x2 field with two
    channels and radius list [1], position (0, 0) is out of border and the
    variance written for channel 0 is 1/4, not 1/nclasses = 1/2. *)
Lemma border_variance_is_not_placeholder :
  out_of_border2 (predictions border_call) 0 0
                 (nth 0 (sizes border_call) 0) = true
  /\ elem (res (varContext2Dmulti border_call)) [0; 0; 0 * 2 * 1 + 1 + 0]
     == 1 / 4
  /\ ~ elem (res (varContext2Dmulti border_call)) [0; 0; 0 * 2 * 1 + 1 + 0]
       == 1 / inject_Z (dim (predictions border_call) 2).
Proof.
  split; [reflexivity|]. split.
  - vm_compute. reflexivity.
  - vm_compute. discriminate.
Qed.

(** ** Constant fields *)



Lemma increasing_radii_le (radii : list Z) (i : nat) :
  increasing_radii radii -> (S i < length radii)%nat ->
  0 <= nth i radii 0 < nth (S i) radii 0.
Proof.
  intros [Hpos Hinc] Hi. split; [apply Hpos; lia | now apply Hinc].
Qed.







(** ** Variance *)

(** C4, at radii [0; 1; 2] on [ring_field], position (2, 2): every box is
    in border, and the variance written for radius index 2 is -17/256.
    The turn for index 2 subtracts the annulus mean of index 1 times the
    full count 9 instead of the radius-1 box sum, so the values at index 2
    are not a mean and a mean of squares of the same sample. *)
Theorem variance_negative_at_third_radius :
  increasing_radii (sizes ring_call)
  /\ out_of_border2 (predictions ring_call) 2 2 2 = false
  /\ elem (res (varContext2Dmulti ring_call)) [2; 2; 0 * 2 * 3 + 3 + 2]
     == - (17 # 256)
  /\ Qlt (elem (res (varContext2Dmulti ring_call))
               [2; 2; 0 * 2 * 3 + 3 + 2]) 0.
Proof.
  split; [|split; [|split]].
  - split; intros [|[|[|i]]] H; simpl in *; lia.
  - reflexivity.
  - vm_compute. reflexivity.
  - vm_compute. reflexivity.
Qed.

(** ** Corner reads *)

(** An invariant of the read log carries through the loop when every turn
    keeps it. *)
Lemma fold_log_invariant
    (step : nat -> list Q * list event -> list Q * list event)
    (P : list event -> Prop) (l : list nat) (st : list Q * list event) :
  (forall ir st, In ir l -> P (snd st) -> P (snd (step ir st))) ->
  P (snd st) ->
  P (snd (fold_left (fun st ir => step ir st) l st)).
Proof.
  revert st. induction l as [|i l IH]; intros st Hstep H; simpl; auto.
  apply IH.
  - intros ir st' Hin. apply Hstep. now right.
  - apply Hstep; [now left | assumption].
Qed.

Lemma corner_in_bounds2 (I : marray) (skip : bool) (a b c : Z) :
  (skip = false -> 0 <= a < dim I 0 /\ 0 <= b < dim I 1) ->
  Forall (read_in_bounds2 I c) (snd (corner skip I [a; b; c])).
Proof.
  intros H. unfold corner. destruct skip; cbn [snd]; constructor; auto.
  exists a, b. split; [reflexivity | now apply H].
Qed.

Lemma corner_in_bounds3 (I : marray) (skip : bool) (a b d c : Z) :
  (skip = false -> 0 <= a < dim I 0 /\ 0 <= b < dim I 1 /\ 0 <= d < dim I 2) ->
  Forall (read_in_bounds3 I c) (snd (corner skip I [a; b; d; c])).
Proof.
  intros H. unfold corner. destruct skip; cbn [snd]; constructor; auto.
  exists a, b, d. split; [reflexivity | now apply H].
Qed.

Lemma corners2_in_bounds (I : marray) (x y c r : Z) :
  0 <= r -> out_of_border2 I x y r = false ->
  Forall (read_in_bounds2 I c) (snd (corners2 I x y c r)).
Proof.
  intros Hr Hb. apply out_of_border2_false in Hb.
  unfold corners2. cbn [snd].
  repeat (apply Forall_app; split);
    apply corner_in_bounds2; skip_cases.
Qed.

Lemma corners3_in_bounds (I : marray) (x y z c r : Z) :
  0 <= r -> out_of_border3 I x y z r = false ->
  Forall (read_in_bounds3 I c) (snd (corners3 I x y z c r)).
Proof.
  intros Hr Hb. apply out_of_border3_false in Hb.
  unfold corners3. cbn [snd].
  repeat (apply Forall_app; split);
    apply corner_in_bounds3; skip_cases.
Qed.

(** For non-negative radii every corner that [average_features] and
    [average_features_3d_is] read lies inside the integral array, on the
    channel asked for: the guards on [x == r], [y == r], [z == r] keep the
    index [-1] from being formed, whatever the position. *)
Theorem corner_reads_in_bounds :
  (forall radii x y c I averages,
      (forall ir, (ir < length radii)%nat -> 0 <= nth ir radii 0) ->
      Forall (read_in_bounds2 I c)
             (snd (average_features radii x y c I averages)))
  /\
  (forall radii x y z c I averages,
      (forall ir, (ir < length radii)%nat -> 0 <= nth ir radii 0) ->
      Forall (read_in_bounds3 I c)
             (snd (average_features_3d_is radii x y z c I averages))).
Proof.
  split.
  - intros radii x y c I averages Hr. unfold average_features.
    apply (fold_log_invariant (average_features_step radii x y c I)
             (Forall (read_in_bounds2 I c))); [|constructor].
    intros ir st Hin H. apply in_seq in Hin.
    unfold average_features_step.
    destruct (out_of_border2 I x y (nth ir radii 0)) eqn:Hb; cbn [snd]; auto.
    apply Forall_app. split; auto.
    apply corners2_in_bounds; auto. apply Hr. lia.
  - intros radii x y z c I averages Hr. unfold average_features_3d_is.
    apply (fold_log_invariant (average_features_3d_is_step radii x y z c I)
             (Forall (read_in_bounds3 I c))); [|constructor].
    intros ir st Hin H. apply in_seq in Hin.
    unfold average_features_3d_is_step.
    destruct (out_of_border3 I x y z (nth ir radii 0)) eqn:Hb; cbn [snd];
      auto.
    apply Forall_app. split; auto.
    apply corners3_in_bounds; auto. apply Hr. lia.
Qed.

Lemma corner_reads_in_bounds_witness :
  Forall (read_in_bounds2 (integralImage center_field) 0)
         (snd (average_features [0; 1; 2] 2 2 0 (integralImage center_field)
                                (new_vector 3)))
  /\ Forall (read_in_bounds3 (integralVolume ramp_volume) 0)
            (snd (average_features_3d_is [0; 1] 1 1 1 0
                    (integralVolume ramp_volume) (new_vector 2))).
Proof.
  split.
  - apply (proj1 corner_reads_in_bounds).
    intros [|[|[|i]]] H; simpl in *; lia.
  - apply (proj2 corner_reads_in_bounds).
    intros [|[|i]] H; simpl in *; lia.
Defined.

Lemma corner_length (skip : bool) (I : marray) (i : index) :
  (length (snd (corner skip I i)) <= 1)%nat.
Proof. unfold corner. destruct skip; simpl; lia. Qed.

Lemma fold_log_length
    (step : nat -> list Q * list event -> list Q * list event)
    (k : nat) (l : list nat) (st : list Q * list event) :
  (forall ir st, (length (snd (step ir st)) <= length (snd st) + k)%nat) ->
  (length (snd (fold_left (fun st ir => step ir st) l st))
   <= length (snd st) + k * length l)%nat.
Proof.
  intros Hstep. revert st. induction l as [|i l IH]; intros st; simpl.
  - lia.
  - specialize (IH (step i st)). specialize (Hstep i st). nia.
Qed.

(** Whatever the radii, [average_features] looks up at most four corners
    per radius and [average_features_3d_is] at most eight: the number of
    reads of the integral array does not grow with the size of the box. *)
Theorem corner_reads_bounded :
  (forall radii x y c I averages,
      (length (snd (average_features radii x y c I averages))
       <= 4 * length radii)%nat)
  /\
  (forall radii x y z c I averages,
      (length (snd (average_features_3d_is radii x y z c I averages))
       <= 8 * length radii)%nat).
Proof.
  split.
  - intros radii x y c I averages. unfold average_features.
    pose proof (fold_log_length (average_features_step radii x y c I) 4
                  (seq 0 (length radii)) (averages, [])) as H.
    rewrite length_seq in H. cbn [snd length] in H. apply H.
    intros ir st. unfold average_features_step.
    destruct (out_of_border2 I x y (nth ir radii 0)); cbn [snd]; [lia|].
    unfold corners2. cbn [snd]. rewrite !length_app.
    pose proof (corner_length ((x =? nth ir radii 0) || (y =? nth ir radii 0))
                  I [x - nth ir radii 0 - 1; y - nth ir radii 0 - 1; c]).
    pose proof (corner_length (y =? nth ir radii 0)
                  I [x + nth ir radii 0; y - nth ir radii 0 - 1; c]).
    pose proof (corner_length (x =? nth ir radii 0)
                  I [x - nth ir radii 0 - 1; y + nth ir radii 0; c]).
    pose proof (corner_length false
                  I [x + nth ir radii 0; y + nth ir radii 0; c]).
    lia.
  - intros radii x y z c I averages. unfold average_features_3d_is.
    pose proof (fold_log_length (average_features_3d_is_step radii x y z c I)
                  8 (seq 0 (length radii)) (averages, [])) as H.
    rewrite length_seq in H. cbn [snd length] in H. apply H.
    intros ir st. unfold average_features_3d_is_step.
    destruct (out_of_border3 I x y z (nth ir radii 0)); cbn [snd]; [lia|].
    unfold corners3. cbn [snd]. rewrite !length_app.
    repeat match goal with
    | |- context [length (snd (corner ?s ?a ?i))] =>
        let H := fresh in
        pose proof (corner_length s a i) as H;
        generalize dependent (length (snd (corner s a i))); intros
    end.
    lia.
Qed.

(** ** What the running subtraction computes *)



(** ** Once out of border, always out of border *)

Lemma out_of_border2_mono (I : marray) (x y r r' : Z) :
  out_of_border2 I x y r = true -> r <= r' ->
  out_of_border2 I x y r' = true.
Proof.
  intros H Hr. destruct (out_of_border2 I x y r') eqn:E; auto.
  apply out_of_border2_false in E.
  assert (E' : out_of_border2 I x y r = false)
    by (apply out_of_border2_false; lia).
  congruence.
Qed.

Lemma out_of_border3_mono (I : marray) (x y z r r' : Z) :
  out_of_border3 I x y z r = true -> r <= r' ->
  out_of_border3 I x y z r' = true.
Proof.
  intros H Hr. destruct (out_of_border3 I x y z r') eqn:E; auto.
  apply out_of_border3_false in E.
  assert (E' : out_of_border3 I x y z r = false)
    by (apply out_of_border3_false; lia).
  congruence.
Qed.

Lemma nondecreasing_nth (radii : list Z) (i j : nat) :
  (forall k, (S k < length radii)%nat -> nth k radii 0 <= nth (S k) radii 0) ->
  (i <= j < length radii)%nat -> nth i radii 0 <= nth j radii 0.
Proof.
  intros H [Hij Hj]. induction j as [|j IH].
  - replace i with 0%nat by lia. lia.
  - destruct (Nat.eq_dec i (S j)) as [-> | Hne]; [lia|].
    specialize (H j Hj). assert (nth i radii 0 <= nth j radii 0)
      by (apply IH; lia). lia.
Qed.

(** For a radius list that never decreases, once the box of radius index
    [i] leaves the array the box of every later index [j >= i] leaves it
    too, and the value stored at [j] is the placeholder [1/nclasses]: an
    in-border radius never follows an out-of-border one. *)
Theorem border_is_final :
  (forall radii x y c I averages i j,
      (forall k, (S k < length radii)%nat ->
                 nth k radii 0 <= nth (S k) radii 0) ->
      (i <= j < length radii)%nat -> (length radii <= length averages)%nat ->
      out_of_border2 I x y (nth i radii 0) = true ->
      out_of_border2 I x y (nth j radii 0) = true
      /\ nth j (fst (average_features radii x y c I averages)) 0%Q
         = (1 / inject_Z (dim I 2))%Q)
  /\
  (forall radii x y z c I averages i j,
      (forall k, (S k < length radii)%nat ->
                 nth k radii 0 <= nth (S k) radii 0) ->
      (i <= j < length radii)%nat -> (length radii <= length averages)%nat ->
      out_of_border3 I x y z (nth i radii 0) = true ->
      out_of_border3 I x y z (nth j radii 0) = true
      /\ nth j (fst (average_features_3d_is radii x y z c I averages)) 0%Q
         = (1 / inject_Z (dim I 3))%Q).
Proof.
  split.
  - intros radii x y c I averages i j Hmono Hij Hlen Hb.
    assert (Hj : out_of_border2 I x y (nth j radii 0) = true).
    { apply (out_of_border2_mono I x y (nth i radii 0)); auto.
      now apply nondecreasing_nth. }
    split; [assumption|].
    rewrite average_features_nth by lia. now apply feature2_border.
  - intros radii x y z c I averages i j Hmono Hij Hlen Hb.
    assert (Hj : out_of_border3 I x y z (nth j radii 0) = true).
    { apply (out_of_border3_mono I x y z (nth i radii 0)); auto.
      now apply nondecreasing_nth. }
    split; [assumption|].
    rewrite average_features_3d_is_nth by lia. now apply feature3_border.
Qed.

Lemma border_is_final_witness :
  (out_of_border2 (integralImage center_field) 1 1 (nth 2 [0; 2; 3] 0) = true
   /\ nth 2 (fst (average_features [0; 2; 3] 1 1 0
                    (integralImage center_field) (new_vector 3))) 0%Q
      = (1 / inject_Z (dim (integralImage center_field) 2))%Q)
  /\ (out_of_border3 (integralVolume ramp_volume) 1 1 1 (nth 2 [0; 2; 3] 0)
      = true
      /\ nth 2 (fst (average_features_3d_is [0; 2; 3] 1 1 1 0
                       (integralVolume ramp_volume) (new_vector 3))) 0%Q
         = (1 / inject_Z (dim (integralVolume ramp_volume) 3))%Q).
Proof.
  split.
  - apply (proj1 border_is_final [0; 2; 3] 1 1 0
             (integralImage center_field) (new_vector 3) 1%nat 2%nat).
    + intros [|[|[|k]]] H; simpl in *; lia.
    + simpl. lia.
    + simpl. lia.
    + reflexivity.
  - apply (proj2 border_is_final [0; 2; 3] 1 1 1 0
             (integralVolume ramp_volume) (new_vector 3) 1%nat 2%nat).
    + intros [|[|[|k]]] H; simpl in *; lia.
    + simpl. lia.
    + simpl. lia.
    + reflexivity.
Defined.

(** ** The [averages] vector as an output parameter *)

Lemma fold_log_same
    (step : nat -> list Q * list event -> list Q * list event)
    (l : list nat) (st1 st2 : list Q * list event) :
  (forall ir st st', snd st = snd st' -> snd (step ir st) = snd (step ir st')) ->
  snd st1 = snd st2 ->
  snd (fold_left (fun st ir => step ir st) l st1)
  = snd (fold_left (fun st ir => step ir st) l st2).
Proof.
  intros Hstep. revert st1 st2.
  induction l as [|i l IH]; intros st1 st2 H; simpl; auto.
Qed.

(** [average_features] and [average_features_3d_is] use [averages] as an
    output only: with room for one value per radius, the values found at
    the radius indices after the call and the corners read do not depend
    on what the vector held before; the vector keeps its length and its
    elements past the last radius index. *)
Theorem averages_is_output_only :
  (forall radii x y c I a1 a2,
      (length radii <= length a1)%nat -> (length radii <= length a2)%nat ->
      (forall i, (i < length radii)%nat ->
                 nth i (fst (average_features radii x y c I a1)) 0%Q
                 = nth i (fst (average_features radii x y c I a2)) 0%Q)
      /\ snd (average_features radii x y c I a1)
         = snd (average_features radii x y c I a2)
      /\ length (fst (average_features radii x y c I a1)) = length a1
      /\ (forall j, (length radii <= j)%nat ->
                    nth j (fst (average_features radii x y c I a1)) 0%Q
                    = nth j a1 0%Q))
  /\
  (forall radii x y z c I a1 a2,
      (length radii <= length a1)%nat -> (length radii <= length a2)%nat ->
      (forall i, (i < length radii)%nat ->
                 nth i (fst (average_features_3d_is radii x y z c I a1)) 0%Q
                 = nth i (fst (average_features_3d_is radii x y z c I a2)) 0%Q)
      /\ snd (average_features_3d_is radii x y z c I a1)
         = snd (average_features_3d_is radii x y z c I a2)
      /\ length (fst (average_features_3d_is radii x y z c I a1)) = length a1
      /\ (forall j, (length radii <= j)%nat ->
                    nth j (fst (average_features_3d_is radii x y z c I a1)) 0%Q
                    = nth j a1 0%Q)).
Proof.
  split.
  - intros radii x y c I a1 a2 H1 H2. repeat split.
    + intros i. induction i as [|i IH]; intros Hi.
      * rewrite (average_features_nth radii x y c I a1 0) by lia.
        rewrite (average_features_nth radii x y c I a2 0) by lia.
        unfold feature2. cbn [Nat.ltb Nat.leb]. reflexivity.
      * rewrite (average_features_nth radii x y c I a1 (S i)) by lia.
        rewrite (average_features_nth radii x y c I a2 (S i)) by lia.
        replace (S i - 1)%nat with i by lia. rewrite IH by lia.
        reflexivity.
    + unfold average_features. apply fold_log_same; [|reflexivity].
      intros ir st st' E. unfold average_features_step.
      destruct (out_of_border2 I x y (nth ir radii 0)); cbn [snd];
        now rewrite E.
    + unfold average_features.
      apply (run_length (average_features_step radii x y c I)
               (step2_length radii x y c I)).
    + intros j Hj. unfold average_features.
      apply (run_other (average_features_step radii x y c I)
               (step2_other radii x y c I) _ j (a1, [])).
      rewrite in_seq. lia.
  - intros radii x y z c I a1 a2 H1 H2. repeat split.
    + intros i. induction i as [|i IH]; intros Hi.
      * rewrite (average_features_3d_is_nth radii x y z c I a1 0) by lia.
        rewrite (average_features_3d_is_nth radii x y z c I a2 0) by lia.
        unfold feature3. cbn [Nat.ltb Nat.leb]. reflexivity.
      * rewrite (average_features_3d_is_nth radii x y z c I a1 (S i)) by lia.
        rewrite (average_features_3d_is_nth radii x y z c I a2 (S i))
          by lia.
        replace (S i - 1)%nat with i by lia. rewrite IH by lia.
        reflexivity.
    + unfold average_features_3d_is. apply fold_log_same; [|reflexivity].
      intros ir st st' E. unfold average_features_3d_is_step.
      destruct (out_of_border3 I x y z (nth ir radii 0)); cbn [snd];
        now rewrite E.
    + unfold average_features_3d_is.
      apply (run_length (average_features_3d_is_step radii x y z c I)
               (step3_length radii x y z c I)).
    + intros j Hj. unfold average_features_3d_is.
      apply (run_other (average_features_3d_is_step radii x y z c I)
               (step3_other radii x y z c I) _ j (a1, [])).
      rewrite in_seq. lia.
Qed.

Lemma averages_is_output_only_witness :
  nth 1 (fst (average_features [0; 1] 2 2 0 (integralImage ring_field)
                               [5; 7; 9]%Q)) 0%Q
  = nth 1 (fst (average_features [0; 1] 2 2 0 (integralImage ring_field)
                                 (new_vector 2))) 0%Q
  /\ nth 1 (fst (average_features_3d_is [0; 1] 1 1 1 0
                   (integralVolume ramp_volume) [5; 7; 9]%Q)) 0%Q
     = nth 1 (fst (average_features_3d_is [0; 1] 1 1 1 0
                     (integralVolume ramp_volume) (new_vector 2))) 0%Q.
Proof.
  split.
  - apply (proj1 (proj1 averages_is_output_only [0; 1] 2 2 0
                    (integralImage ring_field) [5; 7; 9]%Q (new_vector 2)
                    ltac:(simpl; lia) ltac:(simpl; lia)) 1%nat).
    simpl. lia.
  - apply (proj1 (proj2 averages_is_output_only [0; 1] 1 1 1 0
                    (integralVolume ramp_volume) [5; 7; 9]%Q (new_vector 2)
                    ltac:(simpl; lia) ltac:(simpl; lia)) 1%nat).
    simpl. lia.
Defined.

(** ** The output array is filled, and only inside its shape *)

Lemma channel_split (n nc k : Z) :
  0 <= n -> 0 <= k < nc * n ->
  exists c i, 0 <= c < nc /\ 0 <= i < n /\ k = c * n + i.
Proof.
  intros Hn Hk.
  assert (0 < n).
  { destruct (Z.eq_dec n 0) as [-> | Hne]; [|lia]. rewrite Z.mul_0_r in Hk. lia. }
  exists (k / n), (k mod n).
  pose proof (Z.mod_pos_bound k n ltac:(lia)).
  pose proof (Z.div_mod k n ltac:(lia)).
  repeat split; try lia.
  - apply Z.div_pos; lia.
  - apply Z.div_lt_upper_bound; lia.
Qed.

Lemma channel_bound (n nc c i : Z) :
  0 <= c < nc -> 0 <= i < n -> 0 <= c * n + i < nc * n.
Proof. intros Hc Hi. nia. Qed.

(** With [C] input channels and [R] radii, [avContext2Dmulti] writes
    every element of an output of shape [(X, Y, C*R)] and nothing outside
    it; [varContext2Dmulti] and [varContext3Dmulti] do so for the shapes
    [(X, Y, C*2*R)] and [(X, Y, Z, C*2*R)]. *)
Theorem output_is_filled (m : mem) :
  let n := Z.of_nat (length (sizes m)) in
  let p := predictions m in
  (forall idx,
      (exists v, In (EvWrite idx v) (new_events avContext2Dmulti m)) <->
      (exists x y k, idx = [x; y; k] /\ 0 <= x < dim p 0 /\ 0 <= y < dim p 1
                     /\ 0 <= k < dim p 2 * n))
  /\
  (forall idx,
      (exists v, In (EvWrite idx v) (new_events varContext2Dmulti m)) <->
      (exists x y k, idx = [x; y; k] /\ 0 <= x < dim p 0 /\ 0 <= y < dim p 1
                     /\ 0 <= k < dim p 2 * (2 * n)))
  /\
  (forall idx,
      (exists v, In (EvWrite idx v) (new_events varContext3Dmulti m)) <->
      (exists x y z k, idx = [x; y; z; k] /\ 0 <= x < dim p 0
                       /\ 0 <= y < dim p 1 /\ 0 <= z < dim p 2
                       /\ 0 <= k < dim p 3 * (2 * n))).
Proof.
  cbv zeta. set (n := Z.of_nat (length (sizes m))).
  assert (Hn : 0 <= n) by (unfold n; lia).
  split; [|split]; intros idx.
  - rewrite (new_events_emit _ _ _ (avContext2Dmulti_emits m)). split.
    + intros (v & H). apply av2_write in H. fold n in H.
      destruct H as (c & x & y & i & Hc & Hx & Hy & Hi & -> & _).
      exists x, y, (c * n + i). repeat split; try lia;
        apply channel_bound; assumption.
    + intros (x & y & k & -> & Hx & Hy & Hk).
      destruct (channel_split n _ k Hn Hk) as (c & i & Hc & Hi & ->).
      eexists. apply av2_write. exists c, x, y, i. fold n. auto 10.
  - rewrite (new_events_emit _ _ _ (varContext2Dmulti_emits m)). split.
    + intros (v & H). apply var2_write in H. fold n in H.
      destruct H as (c & x & y & i & Hc & Hx & Hy & Hi & [[-> _] | [-> _]]).
      * exists x, y, (c * 2 * n + i). repeat split; try lia;
          replace (c * 2 * n + i) with (c * (2 * n) + i) by lia;
          apply channel_bound; lia.
      * exists x, y, (c * 2 * n + n + i). repeat split; try lia;
          replace (c * 2 * n + n + i) with (c * (2 * n) + (n + i)) by lia;
          apply channel_bound; lia.
    + intros (x & y & k & -> & Hx & Hy & Hk).
      destruct (channel_split (2 * n) _ k ltac:(lia) Hk)
        as (c & j & Hc & Hj & ->).
      destruct (Z_lt_ge_dec j n) as [Hlt | Hge].
      * eexists. apply var2_write. exists c, x, y, j. fold n.
        repeat split; try lia. left. split; [|reflexivity].
        f_equal. f_equal. f_equal. lia.
      * eexists. apply var2_write. exists c, x, y, (j - n). fold n.
        repeat split; try lia. right. split; [|reflexivity].
        f_equal. f_equal. f_equal. lia.
  - rewrite (new_events_emit _ _ _ (varContext3Dmulti_emits m)). split.
    + intros (v & H). apply var3_write in H. fold n in H.
      destruct H
        as (c & x & y & z & i & Hc & Hx & Hy & Hz & Hi & [[-> _] | [-> _]]).
      * exists x, y, z, (c * 2 * n + i). repeat split; try lia;
          replace (c * 2 * n + i) with (c * (2 * n) + i) by lia;
          apply channel_bound; lia.
      * exists x, y, z, (c * 2 * n + n + i). repeat split; try lia;
          replace (c * 2 * n + n + i) with (c * (2 * n) + (n + i)) by lia;
          apply channel_bound; lia.
    + intros (x & y & z & k & -> & Hx & Hy & Hz & Hk).
      destruct (channel_split (2 * n) _ k ltac:(lia) Hk)
        as (c & j & Hc & Hj & ->).
      destruct (Z_lt_ge_dec j n) as [Hlt | Hge].
      * eexists. apply var3_write. exists c, x, y, z, j. fold n.
        repeat split; try lia. left. split; [|reflexivity].
        f_equal. f_equal. f_equal. f_equal. lia.
      * eexists. apply var3_write. exists c, x, y, z, (j - n). fold n.
        repeat split; try lia. right. split; [|reflexivity].
        f_equal. f_equal. f_equal. f_equal. lia.
Qed.

Lemma output_is_filled_witness :
  exists v, In (EvWrite [4; 0; 1] v) (new_events avContext2Dmulti center_call).
Proof.
  apply (proj1 (output_is_filled center_call)).
  exists 4, 0, 1. cbn. repeat split; lia.
Defined.

(** ** The two-dimensional drivers agree on the means *)

(** The mean that [varContext2Dmulti] stores for channel [c] and radius
    index [i] (at output channel [c*2*n + i]) is the value that
    [avContext2Dmulti] stores for them (at output channel [c*n + i]). *)
Theorem drivers_agree_on_means (m : mem) (c x y i : Z) :
  let n := Z.of_nat (length (sizes m)) in
  0 <= c < dim (predictions m) 2 -> 0 <= x < dim (predictions m) 0 ->
  0 <= y < dim (predictions m) 1 -> 0 <= i < n ->
  elem (res (varContext2Dmulti m)) [x; y; c * 2 * n + i]
  = elem (res (avContext2Dmulti m)) [x; y; c * n + i].
Proof.
  intros n Hc Hx Hy Hi. subst n.
  rewrite var2_res_mean, av2_res by assumption. reflexivity.
Qed.

Lemma drivers_agree_on_means_witness :
  elem (res (varContext2Dmulti ring_call)) [2; 2; 0 * 2 * 3 + 2]
  = elem (res (avContext2Dmulti ring_call)) [2; 2; 0 * 3 + 2].
Proof.
  apply (drivers_agree_on_means ring_call 0 2 2 2); cbn; lia.
Defined.

(** ** A second call changes nothing *)

(** What a list of events leaves at an index is either what was there or
    a value fixed by the events. *)
Lemma replay_cases (evs : list event) (idx : index) :
  (forall a, elem (replay evs a) idx = elem a idx)
  \/ (exists v, forall a, elem (replay evs a) idx = v).
Proof.
  induction evs as [|e evs IH] using rev_ind.
  - left. reflexivity.
  - destruct e as [j | j w].
    + destruct IH as [IH | [v IH]]; [left | right; exists v];
        intros a; rewrite replay_app; apply IH.
    + destruct (index_eqb idx j) eqn:E.
      * right. exists w. intros a. rewrite replay_app. simpl.
        now rewrite E.
      * destruct IH as [IH | [v IH]]; [left | right; exists v];
          intros a; rewrite replay_app; simpl; rewrite E; apply IH.
Qed.

Lemma replay_twice (evs : list event) (a : marray) (idx : index) :
  elem (replay evs (replay evs a)) idx = elem (replay evs a) idx.
Proof.
  destruct (replay_cases evs idx) as [H | [v H]].
  - apply H.
  - now rewrite !H.
Qed.

(** The drivers never read the output array: calling a driver again on
    the memory it returned leaves every element of the output as the first
    call left it. *)
Theorem drivers_idempotent (m : mem) (idx : index) :
  elem (res (avContext2Dmulti (avContext2Dmulti m))) idx
  = elem (res (avContext2Dmulti m)) idx
  /\ elem (res (varContext2Dmulti (varContext2Dmulti m))) idx
     = elem (res (varContext2Dmulti m)) idx
  /\ elem (res (varContext3Dmulti (varContext3Dmulti m))) idx
     = elem (res (varContext3Dmulti m)) idx.
Proof.
  repeat split.
  - rewrite (avContext2Dmulti_emits (avContext2Dmulti m)).
    rewrite (avContext2Dmulti_emits m). cbn [res emit sizes predictions].
    apply replay_twice.
  - rewrite (varContext2Dmulti_emits (varContext2Dmulti m)).
    rewrite (varContext2Dmulti_emits m). cbn [res emit sizes predictions].
    apply replay_twice.
  - rewrite (varContext3Dmulti_emits (varContext3Dmulti m)).
    rewrite (varContext3Dmulti_emits m). cbn [res emit sizes predictions].
    apply replay_twice.
Qed.

(** ** Variance at the first two radii *)

Section QInequalities.
Local Open Scope Q_scope.









End QInequalities.

(** *** Sums over a box inside a box *)







(** *** Cauchy-Schwarz on boxes and annuli *)







(** *** The first two values are a mean over a box and over an annulus *)







Lemma count3_pos (r : Z) : 0 <= r -> 0 < count3 r.
Proof.
  intros H. unfold count3.
  assert (0 < 2 * r + 1) by lia. repeat apply Z.mul_pos_pos; assumption.
Qed.





(** ** Only the asked channel, inside the bounds, matters *)

Lemma fold_left_agree {A B : Type} (f g : A -> B -> A) (l : list B) (a : A) :
  (forall b s, In b l -> f s b = g s b) -> fold_left f l a = fold_left g l a.
Proof.
  revert a. induction l as [|b l IH]; intros a H; simpl; auto.
  rewrite (H b a) by now left. apply IH. intros b' s Hin. apply H.
  now right.
Qed.

Lemma corner_agree (I I' : marray) (skip : bool) (i : index) :
  (skip = false -> elem I i = elem I' i) ->
  corner skip I i = corner skip I' i.
Proof.
  intros H. unfold corner. destruct skip; auto. now rewrite H.
Qed.

Lemma out_of_border2_shape (I I' : marray) (x y r : Z) :
  shape I = shape I' -> out_of_border2 I x y r = out_of_border2 I' x y r.
Proof. intros H. unfold out_of_border2, dim. now rewrite H. Qed.

Lemma out_of_border3_shape (I I' : marray) (x y z r : Z) :
  shape I = shape I' -> out_of_border3 I x y z r = out_of_border3 I' x y z r.
Proof. intros H. unfold out_of_border3, dim. now rewrite H. Qed.

(** For non-negative radii the result of [average_features] for channel
    [c], values and reads, is the same for two integral arrays of one
    shape that agree inside the bounds on channel [c]: other channels and
    anything outside the bounds play no part.  The same holds for
    [average_features_3d_is]. *)
Theorem only_channel_inside_bounds_matters :
  (forall radii x y c I I' averages,
      (forall ir, (ir < length radii)%nat -> 0 <= nth ir radii 0) ->
      shape I = shape I' ->
      (forall a b, 0 <= a < dim I 0 -> 0 <= b < dim I 1 ->
                   elem I [a; b; c] = elem I' [a; b; c]) ->
      average_features radii x y c I averages
      = average_features radii x y c I' averages)
  /\
  (forall radii x y z c I I' averages,
      (forall ir, (ir < length radii)%nat -> 0 <= nth ir radii 0) ->
      shape I = shape I' ->
      (forall a b d, 0 <= a < dim I 0 -> 0 <= b < dim I 1 ->
                     0 <= d < dim I 2 ->
                     elem I [a; b; d; c] = elem I' [a; b; d; c]) ->
      average_features_3d_is radii x y z c I averages
      = average_features_3d_is radii x y z c I' averages).
Proof.
  split.
  - intros radii x y c I I' averages Hr Hs Hag. unfold average_features.
    apply fold_left_agree. intros ir st Hin. apply in_seq in Hin.
    unfold average_features_step.
    rewrite <- (out_of_border2_shape I I') by assumption.
    replace (dim I' 2) with (dim I 2) by (unfold dim; now rewrite Hs).
    destruct (out_of_border2 I x y (nth ir radii 0)) eqn:Hb; auto.
    apply out_of_border2_false in Hb.
    specialize (Hr ir ltac:(lia)).
    assert (E : corners2 I x y c (nth ir radii 0)
                = corners2 I' x y c (nth ir radii 0)).
    { unfold corners2.
      rewrite !(corner_agree I I') by (intros; apply Hag; skip_cases).
      reflexivity. }
    now rewrite E.
  - intros radii x y z c I I' averages Hr Hs Hag.
    unfold average_features_3d_is.
    apply fold_left_agree. intros ir st Hin. apply in_seq in Hin.
    unfold average_features_3d_is_step.
    rewrite <- (out_of_border3_shape I I') by assumption.
    replace (dim I' 3) with (dim I 3) by (unfold dim; now rewrite Hs).
    destruct (out_of_border3 I x y z (nth ir radii 0)) eqn:Hb; auto.
    apply out_of_border3_false in Hb.
    specialize (Hr ir ltac:(lia)).
    assert (E : corners3 I x y z c (nth ir radii 0)
                = corners3 I' x y z c (nth ir radii 0)).
    { unfold corners3.
      rewrite !(corner_agree I I') by (intros; apply Hag; skip_cases).
      reflexivity. }
    now rewrite E.
Qed.

Lemma only_channel_inside_bounds_matters_witness :
  average_features [0; 1; 2] 2 2 0 (integralImage ring_field) (new_vector 3)
  = average_features [0; 1; 2] 2 2 0
      (off_channel_changed (integralImage ring_field) 0) (new_vector 3)
  /\ average_features_3d_is [0; 1] 1 1 1 0 (integralVolume ramp_volume)
                            (new_vector 2)
     = average_features_3d_is [0; 1] 1 1 1 0
         (off_channel_changed (integralVolume ramp_volume) 0) (new_vector 2).
Proof.
  split.
  - apply (proj1 only_channel_inside_bounds_matters).
    + intros [|[|[|i]]] H; simpl in *; lia.
    + reflexivity.
    + intros a b _ _. reflexivity.
  - apply (proj2 only_channel_inside_bounds_matters).
    + intros [|[|i]] H; simpl in *; lia.
    + reflexivity.
    + intros a b d _ _ _. reflexivity.
Defined.

(** ** The in-border values depend linearly and locally on the field *)

Lemma sum_from_linear (lo : Z) (n : nat) (f g : Z -> Q) (al be : Q) :
  sum_from lo n (fun k => (al * f k + be * g k)%Q)
  == (al * sum_from lo n f + be * sum_from lo n g)%Q.
Proof.
  revert lo. induction n as [|n IH]; intros lo; simpl.
  - ring.
  - rewrite IH. ring.
Qed.

Lemma box_sum2_linear (F G H : marray) (x y c r : Z) (al be : Q) :
  (forall a b, x - r <= a <= x + r -> y - r <= b <= y + r ->
               elem H [a; b; c]
               == (al * elem F [a; b; c] + be * elem G [a; b; c])%Q) ->
  box_sum2 H x y c r
  == (al * box_sum2 F x y c r + be * box_sum2 G x y c r)%Q.
Proof.
  intros Hp. unfold box_sum2.
  rewrite <- sum_from_linear. apply sum_from_ext. intros a Ha.
  rewrite <- sum_from_linear. apply sum_from_ext. intros b Hb.
  apply Hp; lia.
Qed.

Lemma box_sum3_linear (F G H : marray) (x y z c r : Z) (al be : Q) :
  (forall a b d, x - r <= a <= x + r -> y - r <= b <= y + r ->
                 z - r <= d <= z + r ->
                 elem H [a; b; d; c]
                 == (al * elem F [a; b; d; c] + be * elem G [a; b; d; c])%Q) ->
  box_sum3 H x y z c r
  == (al * box_sum3 F x y z c r + be * box_sum3 G x y z c r)%Q.
Proof.
  intros Hp. unfold box_sum3.
  rewrite <- sum_from_linear. apply sum_from_ext. intros a Ha.
  rewrite <- sum_from_linear. apply sum_from_ext. intros b Hb.
  rewrite <- sum_from_linear. apply sum_from_ext. intros d Hd.
  apply Hp; lia.
Qed.

(** When the box sums of [H] are a fixed linear combination of those of
    [F] and [G] at the radii up to index [i], so are the values. *)
Lemma means_linear2 (F G H I J K : marray) (radii : list Z) (x y c : Z)
    (a1 a2 a3 : list Q) (al be : Q) :
  is_integral2 F I -> is_integral2 G J -> is_integral2 H K ->
  shape G = shape F -> shape H = shape F -> 0 <= c < dim F 2 ->
  increasing_radii radii ->
  (length radii <= length a1)%nat -> (length radii <= length a2)%nat ->
  (length radii <= length a3)%nat ->
  forall i, (i < length radii)%nat ->
    out_of_border2 I x y (nth i radii 0) = false ->
    (forall j, (j <= i)%nat ->
       box_sum2 H x y c (nth j radii 0)
       == al * box_sum2 F x y c (nth j radii 0)
          + be * box_sum2 G x y c (nth j radii 0)) ->
    nth i (fst (average_features radii x y c K a3)) 0%Q
    == al * nth i (fst (average_features radii x y c I a1)) 0%Q
       + be * nth i (fst (average_features radii x y c J a2)) 0%Q.
Proof.
  intros HI HJ HK HsG HsH Hc Hinc L1 L2 L3 i.
  assert (SI : shape I = shape F) by apply HI.
  assert (SJ : shape J = shape I) by (rewrite SI, <- HsG; apply HJ).
  assert (SK : shape K = shape I) by (rewrite SI, <- HsH; apply HK).
  assert (DG : dim G 2 = dim F 2) by (unfold dim; now rewrite HsG).
  assert (DH : dim H 2 = dim F 2) by (unfold dim; now rewrite HsH).
  induction i as [|i IH]; intros Hi Hb Hbox.
  - pose proof (proj1 Hinc 0%nat Hi) as Hr.
    assert (HbJ : out_of_border2 J x y (nth 0 radii 0) = false)
      by (now rewrite (out_of_border2_shape J I)).
    assert (HbK : out_of_border2 K x y (nth 0 radii 0) = false)
      by (now rewrite (out_of_border2_shape K I)).
    rewrite (average_features_nth radii x y c K a3 0) by lia.
    rewrite (average_features_nth radii x y c I a1 0) by lia.
    rewrite (average_features_nth radii x y c J a2 0) by lia.
    unfold feature2.
    rewrite Hb, HbJ, HbK. cbn [Nat.ltb Nat.leb].
    rewrite (corners2_box_sum F I), (corners2_box_sum G J),
      (corners2_box_sum H K) by (assumption || lia).
    rewrite (Hbox 0%nat) by lia. unfold divisor2. cbn [Nat.ltb Nat.leb].
    field. apply inject_Z_nonzero. unfold count2. nia.
  - pose proof (increasing_radii_le radii i Hinc Hi) as Hr.
    pose proof (proj1 (out_of_border2_false _ _ _ _) Hb) as Hin.
    assert (Hb' : out_of_border2 I x y (nth i radii 0) = false)
      by (apply out_of_border2_false; lia).
    assert (HbJ : out_of_border2 J x y (nth (S i) radii 0) = false)
      by (now rewrite (out_of_border2_shape J I)).
    assert (HbK : out_of_border2 K x y (nth (S i) radii 0) = false)
      by (now rewrite (out_of_border2_shape K I)).
    specialize (IH ltac:(lia) Hb' ltac:(intros j Hj; apply Hbox; lia)).
    rewrite (average_features_nth radii x y c K a3 (S i)) by lia.
    rewrite (average_features_nth radii x y c I a1 (S i)) by lia.
    rewrite (average_features_nth radii x y c J a2 (S i)) by lia.
    unfold feature2. rewrite Hb, HbJ, HbK. cbn [Nat.ltb Nat.leb].
    replace (S i - 1)%nat with i by lia. rewrite IH.
    rewrite (corners2_box_sum F I), (corners2_box_sum G J),
      (corners2_box_sum H K) by (assumption || lia).
    rewrite (Hbox (S i)) by lia. unfold divisor2. cbn [Nat.ltb Nat.leb].
    replace (S i - 1)%nat with i by lia.
    field. apply inject_Z_nonzero.
    pose proof (proj2 (count_gap_positive _ _ Hr)). lia.
Qed.

(** The same for [average_features_3d_is]. *)
Lemma means_linear3 (F G H I J K : marray) (radii : list Z) (x y z c : Z)
    (a1 a2 a3 : list Q) (al be : Q) :
  is_integral3 F I -> is_integral3 G J -> is_integral3 H K ->
  shape G = shape F -> shape H = shape F -> 0 <= c < dim F 3 ->
  increasing_radii radii ->
  (length radii <= length a1)%nat -> (length radii <= length a2)%nat ->
  (length radii <= length a3)%nat ->
  forall i, (i < length radii)%nat ->
    out_of_border3 I x y z (nth i radii 0) = false ->
    (forall j, (j <= i)%nat ->
       box_sum3 H x y z c (nth j radii 0)
       == al * box_sum3 F x y z c (nth j radii 0)
          + be * box_sum3 G x y z c (nth j radii 0)) ->
    nth i (fst (average_features_3d_is radii x y z c K a3)) 0%Q
    == al * nth i (fst (average_features_3d_is radii x y z c I a1)) 0%Q
       + be * nth i (fst (average_features_3d_is radii x y z c J a2)) 0%Q.
Proof.
  intros HI HJ HK HsG HsH Hc Hinc L1 L2 L3 i.
  assert (SI : shape I = shape F) by apply HI.
  assert (SJ : shape J = shape I) by (rewrite SI, <- HsG; apply HJ).
  assert (SK : shape K = shape I) by (rewrite SI, <- HsH; apply HK).
  assert (DG : dim G 3 = dim F 3) by (unfold dim; now rewrite HsG).
  assert (DH : dim H 3 = dim F 3) by (unfold dim; now rewrite HsH).
  induction i as [|i IH]; intros Hi Hb Hbox.
  - pose proof (proj1 Hinc 0%nat Hi) as Hr.
    assert (HbJ : out_of_border3 J x y z (nth 0 radii 0) = false)
      by (now rewrite (out_of_border3_shape J I)).
    assert (HbK : out_of_border3 K x y z (nth 0 radii 0) = false)
      by (now rewrite (out_of_border3_shape K I)).
    rewrite (average_features_3d_is_nth radii x y z c K a3 0) by lia.
    rewrite (average_features_3d_is_nth radii x y z c I a1 0) by lia.
    rewrite (average_features_3d_is_nth radii x y z c J a2 0) by lia.
    unfold feature3.
    rewrite Hb, HbJ, HbK. cbn [Nat.ltb Nat.leb].
    rewrite (corners3_box_sum F I), (corners3_box_sum G J),
      (corners3_box_sum H K) by (assumption || lia).
    rewrite (Hbox 0%nat) by lia. unfold divisor3. cbn [Nat.ltb Nat.leb].
    field. apply inject_Z_nonzero.
    pose proof (count3_pos _ Hr). lia.
  - pose proof (increasing_radii_le radii i Hinc Hi) as Hr.
    pose proof (proj1 (out_of_border3_false _ _ _ _ _) Hb) as Hin.
    assert (Hb' : out_of_border3 I x y z (nth i radii 0) = false)
      by (apply out_of_border3_false; lia).
    assert (HbJ : out_of_border3 J x y z (nth (S i) radii 0) = false)
      by (now rewrite (out_of_border3_shape J I)).
    assert (HbK : out_of_border3 K x y z (nth (S i) radii 0) = false)
      by (now rewrite (out_of_border3_shape K I)).
    specialize (IH ltac:(lia) Hb' ltac:(intros j Hj; apply Hbox; lia)).
    rewrite (average_features_3d_is_nth radii x y z c K a3 (S i)) by lia.
    rewrite (average_features_3d_is_nth radii x y z c I a1 (S i)) by lia.
    rewrite (average_features_3d_is_nth radii x y z c J a2 (S i)) by lia.
    unfold feature3. rewrite Hb, HbJ, HbK. cbn [Nat.ltb Nat.leb].
    replace (S i - 1)%nat with i by lia. rewrite IH.
    rewrite (corners3_box_sum F I), (corners3_box_sum G J),
      (corners3_box_sum H K) by (assumption || lia).
    rewrite (Hbox (S i)) by lia. unfold divisor3. cbn [Nat.ltb Nat.leb].
    replace (S i - 1)%nat with i by lia.
    field. apply inject_Z_nonzero.
    pose proof (proj1 (count_gap_positive _ _ Hr)). lia.
Qed.

Lemma increasing_nondecreasing (radii : list Z) :
  increasing_radii radii ->
  forall k, (S k < length radii)%nat -> nth k radii 0 <= nth (S k) radii 0.
Proof. intros [_ H] k Hk. specialize (H k Hk). lia. Qed.

(** Assuming exact prefix-sum integral arrays and non-negative strictly
    increasing radii: at an in-border radius index the value computed for
    the field [al * F + be * G] is [al] times the value for [F] plus [be]
    times the value for [G]. *)
Theorem means_are_linear :
  (forall (F G H I J K : marray) (radii : list Z) (x y c : Z)
          (a1 a2 a3 : list Q) (al be : Q) (i : nat),
      is_integral2 F I -> is_integral2 G J -> is_integral2 H K ->
      shape G = shape F -> shape H = shape F -> 0 <= c < dim F 2 ->
      increasing_radii radii ->
      (length radii <= length a1)%nat -> (length radii <= length a2)%nat ->
      (length radii <= length a3)%nat -> (i < length radii)%nat ->
      out_of_border2 I x y (nth i radii 0) = false ->
      (forall a b, 0 <= a < dim F 0 -> 0 <= b < dim F 1 ->
                   elem H [a; b; c]
                   == al * elem F [a; b; c] + be * elem G [a; b; c]) ->
      nth i (fst (average_features radii x y c K a3)) 0%Q
      == al * nth i (fst (average_features radii x y c I a1)) 0%Q
         + be * nth i (fst (average_features radii x y c J a2)) 0%Q)
  /\
  (forall (F G H I J K : marray) (radii : list Z) (x y z c : Z)
          (a1 a2 a3 : list Q) (al be : Q) (i : nat),
      is_integral3 F I -> is_integral3 G J -> is_integral3 H K ->
      shape G = shape F -> shape H = shape F -> 0 <= c < dim F 3 ->
      increasing_radii radii ->
      (length radii <= length a1)%nat -> (length radii <= length a2)%nat ->
      (length radii <= length a3)%nat -> (i < length radii)%nat ->
      out_of_border3 I x y z (nth i radii 0) = false ->
      (forall a b d, 0 <= a < dim F 0 -> 0 <= b < dim F 1 ->
                     0 <= d < dim F 2 ->
                     elem H [a; b; d; c]
                     == al * elem F [a; b; d; c] + be * elem G [a; b; d; c]) ->
      nth i (fst (average_features_3d_is radii x y z c K a3)) 0%Q
      == al * nth i (fst (average_features_3d_is radii x y z c I a1)) 0%Q
         + be * nth i (fst (average_features_3d_is radii x y z c J a2)) 0%Q).
Proof.
  split.
  - intros F G H I J K radii x y c a1 a2 a3 al be i HI HJ HK HsG HsH Hc
           Hinc L1 L2 L3 Hi Hb Hp.
    apply (means_linear2 F G H I J K); auto.
    intros j Hj. apply box_sum2_linear. intros a b Ha Hb'.
    pose proof (nondecreasing_nth radii j i
                  (increasing_nondecreasing radii Hinc) ltac:(lia)).
    pose proof (proj1 Hinc j ltac:(lia)).
    apply out_of_border2_false in Hb.
    rewrite !(dim_integral2 F I) in Hb by assumption.
    apply Hp; lia.
  - intros F G H I J K radii x y z c a1 a2 a3 al be i HI HJ HK HsG HsH Hc
           Hinc L1 L2 L3 Hi Hb Hp.
    apply (means_linear3 F G H I J K); auto.
    intros j Hj. apply box_sum3_linear. intros a b d Ha Hb' Hd.
    pose proof (nondecreasing_nth radii j i
                  (increasing_nondecreasing radii Hinc) ltac:(lia)).
    pose proof (proj1 Hinc j ltac:(lia)).
    apply out_of_border3_false in Hb.
    rewrite !(dim_integral3 F I) in Hb by assumption.
    apply Hp; lia.
Qed.

Lemma means_are_linear_witness :
  nth 1 (fst (average_features [0; 1; 2] 2 2 0 (integralImage mix_field)
                               (new_vector 3))) 0%Q
  == 2 * nth 1 (fst (average_features [0; 1; 2] 2 2 0
                       (integralImage center_field) (new_vector 3))) 0%Q
     + 3 * nth 1 (fst (average_features [0; 1; 2] 2 2 0
                         (integralImage ring_field) (new_vector 3))) 0%Q
  /\ nth 1 (fst (average_features_3d_is [0; 1] 1 1 1 0
                   (integralVolume mix_volume) (new_vector 2))) 0%Q
     == 2 * nth 1 (fst (average_features_3d_is [0; 1] 1 1 1 0
                          (integralVolume ramp_volume) (new_vector 2))) 0%Q
        + 3 * nth 1 (fst (average_features_3d_is [0; 1] 1 1 1 0
                            (integralVolume const_volume) (new_vector 2)))
                0%Q.
Proof.
  split.
  - apply (proj1 means_are_linear center_field ring_field mix_field);
      try apply integralImage_is_integral2; try reflexivity;
      try (simpl; lia).
    + vm_compute. split; discriminate || reflexivity.
    + split; intros [|[|[|i]]] H; simpl in *; lia.
  - apply (proj2 means_are_linear ramp_volume const_volume mix_volume);
      try apply integralVolume_is_integral3; try reflexivity;
      try (simpl; lia).
    + vm_compute. split; discriminate || reflexivity.
    + split; intros [|[|i]] H; simpl in *; lia.
Defined.

(** Assuming exact prefix-sum integral arrays and non-negative strictly
    increasing radii: the value at an in-border radius index [i] depends
    on the field only through its values in the box of radius [r_i] around
    the position; two fields that agree there give the same value. *)
Theorem means_are_local :
  (forall (F F' I I' : marray) (radii : list Z) (x y c : Z)
          (a1 a2 : list Q) (i : nat),
      is_integral2 F I -> is_integral2 F' I' -> shape F' = shape F ->
      0 <= c < dim F 2 -> increasing_radii radii ->
      (length radii <= length a1)%nat -> (length radii <= length a2)%nat ->
      (i < length radii)%nat ->
      out_of_border2 I x y (nth i radii 0) = false ->
      (forall a b, x - nth i radii 0 <= a <= x + nth i radii 0 ->
                   y - nth i radii 0 <= b <= y + nth i radii 0 ->
                   elem F' [a; b; c] == elem F [a; b; c]) ->
      nth i (fst (average_features radii x y c I' a2)) 0%Q
      == nth i (fst (average_features radii x y c I a1)) 0%Q)
  /\
  (forall (F F' I I' : marray) (radii : list Z) (x y z c : Z)
          (a1 a2 : list Q) (i : nat),
      is_integral3 F I -> is_integral3 F' I' -> shape F' = shape F ->
      0 <= c < dim F 3 -> increasing_radii radii ->
      (length radii <= length a1)%nat -> (length radii <= length a2)%nat ->
      (i < length radii)%nat ->
      out_of_border3 I x y z (nth i radii 0) = false ->
      (forall a b d, x - nth i radii 0 <= a <= x + nth i radii 0 ->
                     y - nth i radii 0 <= b <= y + nth i radii 0 ->
                     z - nth i radii 0 <= d <= z + nth i radii 0 ->
                     elem F' [a; b; d; c] == elem F [a; b; d; c]) ->
      nth i (fst (average_features_3d_is radii x y z c I' a2)) 0%Q
      == nth i (fst (average_features_3d_is radii x y z c I a1)) 0%Q).
Proof.
  split.
  - intros F F' I I' radii x y c a1 a2 i HI HI' Hs Hc Hinc L1 L2 Hi Hb Hp.
    rewrite (means_linear2 F F F' I I I' radii x y c a1 a1 a2 1 0); auto.
    + ring.
    + intros j Hj. apply box_sum2_linear. intros a b Ha Hb'.
      pose proof (nondecreasing_nth radii j i
                    (increasing_nondecreasing radii Hinc) ltac:(lia)).
      pose proof (proj1 Hinc j ltac:(lia)).
      rewrite Hp by lia. ring.
  - intros F F' I I' radii x y z c a1 a2 i HI HI' Hs Hc Hinc L1 L2 Hi Hb Hp.
    rewrite (means_linear3 F F F' I I I' radii x y z c a1 a1 a2 1 0); auto.
    + ring.
    + intros j Hj. apply box_sum3_linear. intros a b d Ha Hb' Hd.
      pose proof (nondecreasing_nth radii j i
                    (increasing_nondecreasing radii Hinc) ltac:(lia)).
      pose proof (proj1 Hinc j ltac:(lia)).
      rewrite Hp by lia. ring.
Qed.

Lemma means_are_local_witness :
  nth 1 (fst (average_features [0; 1] 2 2 0
                (integralImage (far_changed2 ring_field 2 2 1))
                (new_vector 2))) 0%Q
  == nth 1 (fst (average_features [0; 1] 2 2 0 (integralImage ring_field)
                                  (new_vector 2))) 0%Q
  /\ nth 0 (fst (average_features_3d_is [0; 1] 1 1 1 0
                   (integralVolume (far_changed3 ramp_volume 1 1 1 0))
                   (new_vector 2))) 0%Q
     == nth 0 (fst (average_features_3d_is [0; 1] 1 1 1 0
                      (integralVolume ramp_volume) (new_vector 2))) 0%Q.
Proof.
  split.
  - apply (proj1 means_are_local ring_field (far_changed2 ring_field 2 2 1));
      try apply integralImage_is_integral2; try reflexivity;
      try (simpl; lia).
    + vm_compute. split; discriminate || reflexivity.
    + split; intros [|[|i]] H; simpl in *; lia.
    + intros a b Ha Hb. cbn [nth] in Ha, Hb.
      cbn [elem far_changed2]. unfold in_box2, within.
      destruct (Z.leb_spec (2 - 1) a); [|lia].
      destruct (Z.leb_spec a (2 + 1)); [|lia].
      destruct (Z.leb_spec (2 - 1) b); [|lia].
      destruct (Z.leb_spec b (2 + 1)); [|lia].
      reflexivity.
  - apply (proj2 means_are_local ramp_volume
             (far_changed3 ramp_volume 1 1 1 0));
      try apply integralVolume_is_integral3; try reflexivity;
      try (simpl; lia).
    + vm_compute. split; discriminate || reflexivity.
    + split; intros [|[|i]] H; simpl in *; lia.
    + intros a b d Ha Hb Hd. cbn [nth] in Ha, Hb, Hd.
      cbn [elem far_changed3]. unfold in_box3, within.
      destruct (Z.leb_spec (1 - 0) a); [|lia].
      destruct (Z.leb_spec a (1 + 0)); [|lia].
      destruct (Z.leb_spec (1 - 0) b); [|lia].
      destruct (Z.leb_spec b (1 + 0)); [|lia].
      destruct (Z.leb_spec (1 - 0) d); [|lia].
      destruct (Z.leb_spec d (1 + 0)); [|lia].
      reflexivity.
Defined.

(** ** The placeholder as previous sum, with [int] counts *)

Lemma int_wrap_id (v : Z) : - 2 ^ 31 <= v <= max_int -> int_wrap v = v.
Proof.
  unfold int_wrap, max_int. intros H.
  rewrite Z.mod_small; lia.
Qed.

Lemma step2_int_length radii x y c I ir st :
  length (fst (average_features_int_step radii x y c I ir st))
  = length (fst st).
Proof.
  unfold average_features_int_step.
  destruct (out_of_border2 I x y (nth ir radii 0)); cbn [fst];
    apply vec_set_length.
Qed.

Lemma step2_int_other radii x y c I ir j st :
  j <> ir ->
  nth j (fst (average_features_int_step radii x y c I ir st)) 0%Q
  = nth j (fst st) 0%Q.
Proof.
  intros H. unfold average_features_int_step.
  destruct (out_of_border2 I x y (nth ir radii 0)); cbn [fst];
    apply nth_vec_set_neq; congruence.
Qed.

Lemma step2_int_value radii x y c I ir st :
  (ir < length (fst st))%nat ->
  nth ir (fst (average_features_int_step radii x y c I ir st)) 0%Q
  = feature2_int radii x y c I ir (nth (ir - 1) (fst st) 0%Q).
Proof.
  intros H. unfold average_features_int_step, feature2_int.
  destruct (out_of_border2 I x y (nth ir radii 0)); cbn [fst];
    rewrite nth_vec_set_eq by assumption; reflexivity.
Qed.

Lemma step3_int_length radii x y z c I ir st :
  length (fst (average_features_3d_is_int_step radii x y z c I ir st))
  = length (fst st).
Proof.
  unfold average_features_3d_is_int_step.
  destruct (out_of_border3 I x y z (nth ir radii 0)); cbn [fst];
    apply vec_set_length.
Qed.

Lemma step3_int_other radii x y z c I ir j st :
  j <> ir ->
  nth j (fst (average_features_3d_is_int_step radii x y z c I ir st)) 0%Q
  = nth j (fst st) 0%Q.
Proof.
  intros H. unfold average_features_3d_is_int_step.
  destruct (out_of_border3 I x y z (nth ir radii 0)); cbn [fst];
    apply nth_vec_set_neq; congruence.
Qed.

Lemma step3_int_value radii x y z c I ir st :
  (ir < length (fst st))%nat ->
  nth ir (fst (average_features_3d_is_int_step radii x y z c I ir st)) 0%Q
  = feature3_int radii x y z c I ir (nth (ir - 1) (fst st) 0%Q).
Proof.
  intros H. unfold average_features_3d_is_int_step, feature3_int.
  destruct (out_of_border3 I x y z (nth ir radii 0)); cbn [fst];
    rewrite nth_vec_set_eq by assumption; reflexivity.
Qed.

Lemma average_features_int_nth radii x y c I averages ir :
  (ir < length radii)%nat -> (length radii <= length averages)%nat ->
  nth ir (fst (average_features_int radii x y c I averages)) 0%Q
  = feature2_int radii x y c I ir
      (nth (ir - 1) (fst (average_features_int radii x y c I averages)) 0%Q).
Proof.
  intros Hir Hlen. unfold average_features_int.
  destruct (run_turn (average_features_int_step radii x y c I)
              (step2_int_length radii x y c I)
              (step2_int_other radii x y c I)
              (length radii) ir (averages, []) Hir)
    as (before & Hl & Hv & Hp).
  rewrite Hv. rewrite step2_int_value by (rewrite Hl; cbn [fst]; lia).
  destruct ir as [|ir].
  - unfold feature2_int. cbn [Nat.ltb Nat.leb]. reflexivity.
  - rewrite Hp by lia. reflexivity.
Qed.

Lemma average_features_3d_is_int_nth radii x y z c I averages ir :
  (ir < length radii)%nat -> (length radii <= length averages)%nat ->
  nth ir (fst (average_features_3d_is_int radii x y z c I averages)) 0%Q
  = feature3_int radii x y z c I ir
      (nth (ir - 1)
           (fst (average_features_3d_is_int radii x y z c I averages)) 0%Q).
Proof.
  intros Hir Hlen. unfold average_features_3d_is_int.
  destruct (run_turn (average_features_3d_is_int_step radii x y z c I)
              (step3_int_length radii x y z c I)
              (step3_int_other radii x y z c I)
              (length radii) ir (averages, []) Hir)
    as (before & Hl & Hv & Hp).
  rewrite Hv. rewrite step3_int_value by (rewrite Hl; cbn [fst]; lia).
  destruct ir as [|ir].
  - unfold feature3_int. cbn [Nat.ltb Nat.leb]. reflexivity.
  - rewrite Hp by lia. reflexivity.
Qed.

Lemma count2_int_fits (r : Z) :
  0 <= r -> (2 * r + 1) ^ 2 <= max_int -> count2_int r = (2 * r + 1) ^ 2.
Proof.
  intros Hr H. unfold count2_int. rewrite Z.pow_2_r in *.
  apply int_wrap_id. nia.
Qed.

Lemma cube_unfold (a : Z) : a ^ 3 = a * a * a.
Proof. ring. Qed.

Lemma count3_int_fits (r : Z) :
  0 <= r -> (2 * r + 1) ^ 3 <= max_int -> count3_int r = (2 * r + 1) ^ 3.
Proof.
  intros Hr H. unfold count3_int. rewrite cube_unfold in *.
  apply int_wrap_id.
  assert (0 < 2 * r + 1) by lia.
  assert (0 < (2 * r + 1) * (2 * r + 1) * (2 * r + 1))
    by (repeat apply Z.mul_pos_pos; assumption).
  lia.
Qed.

(** Where every radius is non-negative and every count fits an [int],
    the loops with [int] counts are the loops above. *)
Lemma int_counts_agree :
  (forall radii x y c I averages,
      (forall ir, (ir < length radii)%nat ->
                  0 <= nth ir radii 0
                  /\ (2 * nth ir radii 0 + 1) ^ 2 <= max_int) ->
      average_features_int radii x y c I averages
      = average_features radii x y c I averages)
  /\
  (forall radii x y z c I averages,
      (forall ir, (ir < length radii)%nat ->
                  0 <= nth ir radii 0
                  /\ (2 * nth ir radii 0 + 1) ^ 3 <= max_int) ->
      average_features_3d_is_int radii x y z c I averages
      = average_features_3d_is radii x y z c I averages).
Proof.
  split.
  - intros radii x y c I averages H.
    unfold average_features_int, average_features.
    apply fold_left_agree. intros ir st Hin. apply in_seq in Hin.
    unfold average_features_int_step, average_features_step.
    assert (E : divisor2_int radii ir = divisor2 radii ir).
    { unfold divisor2_int, divisor2.
      destruct (H ir ltac:(lia)) as [Hr Hc].
      rewrite (count2_int_fits _ Hr Hc).
      destruct ir as [|k]; cbn [Nat.ltb Nat.leb].
      - unfold count2. now rewrite Z.pow_2_r.
      - replace (S k - 1)%nat with k by lia.
        destruct (H k ltac:(lia)) as [Hr' Hc'].
        rewrite (count2_int_fits _ Hr' Hc'). unfold count2.
        rewrite !Z.pow_2_r in *. apply int_wrap_id. unfold max_int in *.
        nia. }
    now rewrite E.
  - intros radii x y z c I averages H.
    unfold average_features_3d_is_int, average_features_3d_is.
    apply fold_left_agree. intros ir st Hin. apply in_seq in Hin.
    unfold average_features_3d_is_int_step, average_features_3d_is_step.
    assert (P : forall k, (k < length radii)%nat ->
                count3_int (nth k radii 0) = count3 (nth k radii 0)
                /\ 0 < count3 (nth k radii 0) <= max_int).
    { intros k Hk. destruct (H k Hk) as [Hr Hc].
      rewrite (count3_int_fits _ Hr Hc). rewrite cube_unfold in *.
      pose proof (count3_pos _ Hr). unfold count3 in *. lia. }
    assert (E : divisor3_int radii ir = divisor3 radii ir).
    { unfold divisor3_int, divisor3.
      destruct (P ir ltac:(lia)) as [E1 B1]. rewrite E1.
      destruct ir as [|k]; cbn [Nat.ltb Nat.leb]; [reflexivity|].
      replace (S k - 1)%nat with k by lia.
      destruct (P k ltac:(lia)) as [E2 B2]. rewrite E2.
      apply int_wrap_id. unfold max_int in *. lia. }
    rewrite E.
    destruct ir as [|k]; cbn [Nat.ltb Nat.leb]; [reflexivity|].
    replace (S k - 1)%nat with k by lia.
    destruct (P k ltac:(lia)) as [E2 _]. now rewrite E2.
Qed.

(** C5, as the code has it: when radius index [i-1] was out of border, so
    that [averages[i-1]] holds the placeholder [1/nclasses], radius index
    [i] is in border and the count [(2*r_{i-1}+1)^D] of the previous
    radius fits an [int], the value at index [i] is
    [(full_box_sum_i - (1/nclasses) * (2*r_{i-1}+1)^D)
     / ((2*r_i+1)^D - (2*r_{i-1}+1)^D)]: the placeholder times the previous
    box count is subtracted as if it were a sum. *)
Theorem placeholder_used_as_previous_sum :
  (forall (F I : marray) (radii : list Z) (x y c : Z) (averages : list Q)
          (i : nat),
      is_integral2 F I -> 0 <= c < dim F 2 ->
      (0 < i < length radii)%nat -> (length radii <= length averages)%nat ->
      0 <= nth i radii 0 ->
      out_of_border2 I x y (nth (i - 1) radii 0) = true ->
      out_of_border2 I x y (nth i radii 0) = false ->
      (2 * nth (i - 1) radii 0 + 1) ^ 2 <= max_int ->
      nth i (fst (average_features_int radii x y c I averages)) 0%Q
      == (box_sum2 F x y c (nth i radii 0)
          - 1 / inject_Z (dim I 2)
            * inject_Z ((2 * nth (i - 1) radii 0 + 1) ^ 2))
         / inject_Z ((2 * nth i radii 0 + 1) ^ 2
                     - (2 * nth (i - 1) radii 0 + 1) ^ 2))
  /\
  (forall (F I : marray) (radii : list Z) (x y z c : Z) (averages : list Q)
          (i : nat),
      is_integral3 F I -> 0 <= c < dim F 3 ->
      (0 < i < length radii)%nat -> (length radii <= length averages)%nat ->
      0 <= nth i radii 0 ->
      out_of_border3 I x y z (nth (i - 1) radii 0) = true ->
      out_of_border3 I x y z (nth i radii 0) = false ->
      (2 * nth (i - 1) radii 0 + 1) ^ 3 <= max_int ->
      nth i (fst (average_features_3d_is_int radii x y z c I averages)) 0%Q
      == (box_sum3 F x y z c (nth i radii 0)
          - 1 / inject_Z (dim I 3)
            * inject_Z ((2 * nth (i - 1) radii 0 + 1) ^ 3))
         / inject_Z ((2 * nth i radii 0 + 1) ^ 3
                     - (2 * nth (i - 1) radii 0 + 1) ^ 3)).
Proof.
  split.
  - intros F I radii x y c averages i HI Hc Hi Hlen Hr Hout Hin Hfit.
    destruct i as [|k]; [lia|]. replace (S k - 1)%nat with k in * by lia.
    set (r := nth (S k) radii 0) in *. set (rp := nth k radii 0) in *.
    assert (Hlt : r < rp).
    { destruct (Z_lt_ge_dec r rp) as [Hlt | Hge]; [assumption|].
      rewrite (out_of_border2_mono I x y rp r Hout) in Hin by lia.
      discriminate. }
    assert (Er : count2_int r = (2 * r + 1) ^ 2).
    { apply count2_int_fits; [assumption|]. rewrite !Z.pow_2_r in *. nia. }
    assert (Ep : count2_int rp = (2 * rp + 1) ^ 2)
      by (apply count2_int_fits; [lia | assumption]).
    assert (Ed : divisor2_int radii (S k)
                 = (2 * r + 1) ^ 2 - (2 * rp + 1) ^ 2).
    { unfold divisor2_int. cbn [Nat.ltb Nat.leb].
      replace (S k - 1)%nat with k by lia. fold r rp. rewrite Er, Ep.
      apply int_wrap_id. unfold max_int in *. rewrite !Z.pow_2_r in *. nia. }
    rewrite average_features_int_nth by lia.
    unfold feature2_int at 1. fold r. rewrite Hin. cbn [Nat.ltb Nat.leb].
    replace (S k - 1)%nat with k by lia. fold rp. rewrite Ed.
    rewrite (average_features_int_nth radii x y c I averages k) by lia.
    unfold feature2_int at 1. fold rp. rewrite Hout.
    rewrite (corners2_box_sum F I) by assumption.
    assert (E : inject_Z ((2 * rp + 1) ^ 2)
                == inject_Z (2 * rp + 1) * inject_Z (2 * rp + 1))
      by (rewrite Z.pow_2_r, inject_Z_mult; reflexivity).
    rewrite E. unfold Qdiv. apply Qmult_comp; [ring | reflexivity].
  - intros F I radii x y z c averages i HI Hc Hi Hlen Hr Hout Hin Hfit.
    destruct i as [|k]; [lia|]. replace (S k - 1)%nat with k in * by lia.
    set (r := nth (S k) radii 0) in *. set (rp := nth k radii 0) in *.
    assert (Hlt : r < rp).
    { destruct (Z_lt_ge_dec r rp) as [Hlt | Hge]; [assumption|].
      rewrite (out_of_border3_mono I x y z rp r Hout) in Hin by lia.
      discriminate. }
    assert (Hgap : 0 < count3 rp - count3 r)
      by (apply (count_gap_positive rp r); lia).
    assert (Hpos : 0 < count3 r) by (apply count3_pos; lia).
    unfold count3 in Hgap, Hpos.
    assert (Er : count3_int r = (2 * r + 1) ^ 3).
    { apply count3_int_fits; [assumption|]. rewrite !cube_unfold in *. lia. }
    assert (Ep : count3_int rp = (2 * rp + 1) ^ 3)
      by (apply count3_int_fits; [lia | assumption]).
    assert (Ed : divisor3_int radii (S k)
                 = (2 * r + 1) ^ 3 - (2 * rp + 1) ^ 3).
    { unfold divisor3_int. cbn [Nat.ltb Nat.leb].
      replace (S k - 1)%nat with k by lia. fold r rp. rewrite Er, Ep.
      apply int_wrap_id. unfold max_int in *. rewrite !cube_unfold in *.
      lia. }
    rewrite average_features_3d_is_int_nth by lia.
    unfold feature3_int at 1. fold r. rewrite Hin. cbn [Nat.ltb Nat.leb].
    replace (S k - 1)%nat with k by lia. fold rp. rewrite Ed, Ep.
    rewrite (average_features_3d_is_int_nth radii x y z c I averages k)
      by lia.
    unfold feature3_int at 1. fold rp. rewrite Hout.
    rewrite (corners3_box_sum F I) by assumption.
    reflexivity.
Qed.

Lemma placeholder_used_as_previous_sum_witness :
  nth 1 (fst (average_features_int [3; 1] 2 2 0 (integralImage center_field)
                                   (new_vector 2))) 0%Q
  == (box_sum2 center_field 2 2 0 1
      - 1 / inject_Z (dim (integralImage center_field) 2)
        * inject_Z ((2 * 3 + 1) ^ 2))
     / inject_Z ((2 * 1 + 1) ^ 2 - (2 * 3 + 1) ^ 2)
  /\ nth 1 (fst (average_features_3d_is_int [2; 1] 1 1 1 0
                   (integralVolume ramp_volume) (new_vector 2))) 0%Q
     == (box_sum3 ramp_volume 1 1 1 0 1
         - 1 / inject_Z (dim (integralVolume ramp_volume) 3)
           * inject_Z ((2 * 2 + 1) ^ 3))
        / inject_Z ((2 * 1 + 1) ^ 3 - (2 * 2 + 1) ^ 3).
Proof.
  split.
  - apply (proj1 placeholder_used_as_previous_sum center_field
             (integralImage center_field) [3; 1] 2 2 0 (new_vector 2) 1%nat).
    + apply integralImage_is_integral2.
    + vm_compute. split; discriminate || reflexivity.
    + simpl. lia.
    + simpl. lia.
    + simpl. lia.
    + reflexivity.
    + reflexivity.
    + vm_compute. discriminate.
  - apply (proj2 placeholder_used_as_previous_sum ramp_volume
             (integralVolume ramp_volume) [2; 1] 1 1 1 0 (new_vector 2)
             1%nat).
    + apply integralVolume_is_integral3.
    + vm_compute. split; discriminate || reflexivity.
    + simpl. lia.
    + simpl. lia.
    + simpl. lia.
    + reflexivity.
    + reflexivity.
    + vm_compute. discriminate.
Defined.

(** The values of the two sample calls above: 6/5 and -37/98. *)
Lemma placeholder_sample_values :
  nth 1 (fst (average_features_int [3; 1] 2 2 0 (integralImage center_field)
                                   (new_vector 2))) 0%Q
  == 6 # 5
  /\ nth 1 (fst (average_features_3d_is_int [2; 1] 1 1 1 0
                   (integralVolume ramp_volume) (new_vector 2))) 0%Q
     == - (37 # 98).
Proof. split; vm_compute; reflexivity. Qed.

(** C5 as stated, without the bound, fails.  With radii [23170; 1] on
    [center_field] at (2, 2), radius index 0 is out of border and radius
    index 1 is in border; [(2*23170+1)^2 = 2147488281] exceeds [INT_MAX],
    the [int] [n] holds [9 - (-2147479015) = 2147479024], and the value at
    index 1 is [(1 - 2147488281) / 2147479024], about -1.0000043, while
    the formula gives [(1 - 2147488281) / (9 - 2147488281)], about
    +1.0000000037.  The same happens in three dimensions from radius 645,
    whose count [1291^3 = 2151685171] exceeds [INT_MAX]. *)
Lemma placeholder_formula_fails_past_max_int :
  (out_of_border2 (integralImage center_field) 2 2 (nth 0 [23170; 1] 0)
   = true
   /\ out_of_border2 (integralImage center_field) 2 2 (nth 1 [23170; 1] 0)
      = false
   /\ nth 1 (fst (average_features_int [23170; 1] 2 2 0
                    (integralImage center_field) (new_vector 2))) 0%Q
      == - (2147488280 # 2147479024)
   /\ ~ nth 1 (fst (average_features_int [23170; 1] 2 2 0
                      (integralImage center_field) (new_vector 2))) 0%Q
        == (box_sum2 center_field 2 2 0 1
            - 1 / inject_Z (dim (integralImage center_field) 2)
              * inject_Z ((2 * 23170 + 1) ^ 2))
           / inject_Z ((2 * 1 + 1) ^ 2 - (2 * 23170 + 1) ^ 2))
  /\
  (out_of_border3 (integralVolume ramp_volume) 1 1 1 (nth 0 [645; 1] 0)
   = true
   /\ out_of_border3 (integralVolume ramp_volume) 1 1 1 (nth 1 [645; 1] 0)
      = false
   /\ ~ nth 1 (fst (average_features_3d_is_int [645; 1] 1 1 1 0
                      (integralVolume ramp_volume) (new_vector 2))) 0%Q
        == (box_sum3 ramp_volume 1 1 1 0 1
            - 1 / inject_Z (dim (integralVolume ramp_volume) 3)
              * inject_Z ((2 * 645 + 1) ^ 3))
           / inject_Z ((2 * 1 + 1) ^ 3 - (2 * 645 + 1) ^ 3)).
Proof.
  split.
  - split; [reflexivity|]. split; [reflexivity|]. split.
    + vm_compute. reflexivity.
    + vm_compute. discriminate.
  - split; [reflexivity|]. split; [reflexivity|].
    vm_compute. discriminate.
Qed.
